(** * SquiggleSync: sequencing, event log and presence store

    A shallow embedding of
    - [SequenceManagerService]  (backend, per-room counters),
    - [EventStoreService]       (backend, per-room ordered log),
    - the [GET /:roomId] handler of the event-store router,
    - [PresenceStore]           (frontend, active users and cursors),
    together with the properties the design document states about them.

    Conventions of the embedding.
    - A JavaScript [Map<string, V>] is a [gmap string V]; only lookups,
      [set] and [delete] are used by the modelled code, never iteration
      order.
    - Integer-valued JavaScript numbers (sequence numbers, timestamps,
      coordinates) are [Z], with exact arithmetic (as doubles have it below
      2^53).  A number that may be [NaN] (the result of [parseInt]) is a
      [number].
    - Strings are Rocq strings; [charCodeAt] is the code of the
      character.
    - [Date.now()] is an input of the operation that reads it.
    - A JavaScript exception is the [Thrown] outcome. *)

From Equations Require Import Equations.
From stdpp Require Import gmap strings list fin_maps sorting.
From Stdlib Require Import ZArith Lia Ascii.

Local Open Scope Z_scope.

(** ** Outcomes: a call returns or throws *)

Inductive outcome (A : Type) : Type :=
| Returned (a : A)
| Thrown (err : string).
Arguments Returned {A} a.
Arguments Thrown {A} err.

(** Sequencing of calls: a throw aborts what follows.  With these two
    instances the notation [x ← m; k] reads as a block of statements. *)
#[export] Instance outcome_ret : MRet outcome := fun A a => Returned a.
#[export] Instance outcome_bind : MBind outcome := fun A B k m =>
  match m with
  | Returned a => k a
  | Thrown err => Thrown err
  end.

(** ** JavaScript truthiness on the values the code tests *)

(** A number is falsy when it is [0] (or [NaN], which [Z] does not have). *)
Definition truthy (v : Z) : bool := negb (v =? 0).

(** [x || 0] for [x : number | undefined]. *)
Definition or_zero (x : option Z) : Z :=
  match x with
  | Some v => if truthy v then v else 0
  | None => 0
  end.

(** A number that may be [NaN]. *)
Inductive number : Type :=
| Int (z : Z)
| NaN.

(** [v > k] for an integer [v]; every comparison with [NaN] is false. *)
Definition gt_number (v : Z) (k : number) : bool :=
  match k with
  | Int k => k <? v
  | NaN => false
  end.

(** ** SequenceManagerService *)

Module SequenceManagerService.

(** [private sequences: Map<string, number>] *)
Record state : Type := mk { sequences : gmap string Z }.

(** [new SequenceManagerService()] *)
Definition init : state := mk ∅.

Definition getNextSequence (roomId : string) (s : state) : Z * state :=
  let current := or_zero (sequences s !! roomId) in
  let next := current + 1 in
  (next, mk (<[roomId := next]> (sequences s))).

Definition getCurrentSequence (roomId : string) (s : state) : Z :=
  or_zero (sequences s !! roomId).

Definition resetSequence (roomId : string) (s : state) : state :=
  mk (delete roomId (sequences s)).

(** The three methods as calls, for traces of use. *)
Inductive call : Type :=
| GetNextSequence (roomId : string)
| GetCurrentSequence (roomId : string)
| ResetSequence (roomId : string).

Definition call_room (c : call) : string :=
  match c with
  | GetNextSequence r | GetCurrentSequence r | ResetSequence r => r
  end.

(** One call: the number it returns ([None] for [void]) and the new
    state. *)
Definition exec (c : call) (s : state) : option Z * state :=
  match c with
  | GetNextSequence r => let '(n, s') := getNextSequence r s in (Some n, s')
  | GetCurrentSequence r => (Some (getCurrentSequence r s), s)
  | ResetSequence r => (None, resetSequence r s)
  end.

(** The values that the [getNextSequence(roomId)] calls of a trace return,
    in call order. *)
Fixpoint issued (roomId : string) (tr : list call) (s : state) : list Z :=
  match tr with
  | [] => []
  | c :: tr' =>
      let '(_, s') := exec c s in
      match c with
      | GetNextSequence r =>
          if decide (r = roomId)
          then fst (getNextSequence r s) :: issued roomId tr' s'
          else issued roomId tr' s'
      | _ => issued roomId tr' s'
      end
  end.

Definition is_reset_of (roomId : string) (c : call) : bool :=
  match c with
  | ResetSequence r => bool_decide (r = roomId)
  | _ => false
  end.

(** How many [getNextSequence(roomId)] calls the trace makes. *)
Definition next_calls (roomId : string) (tr : list call) : nat :=
  length (List.filter
            (fun c => match c with
                      | GetNextSequence r => bool_decide (r = roomId)
                      | _ => false
                      end) tr).

(** No [resetSequence(roomId)] in the trace. *)
Definition never_reset (roomId : string) (tr : list call) : bool :=
  forallb (fun c => negb (is_reset_of roomId c)) tr.

(** The state after a trace of calls. *)
Definition run (tr : list call) (s : state) : state :=
  fold_left (fun s c => snd (exec c s)) tr s.

End SequenceManagerService.

(** ** Whiteboard events (types/events.ts) *)

(** The variant-specific payload; the discriminant [type] is the
    constructor. *)
Inductive EventBody : Type :=
| DRAW_LINE (points : list (Z * Z)) (color : string) (strokeWidth : Z)
| DRAW_PATH (path : list (Z * Z)) (color : string) (strokeWidth : Z)
| ERASE (x y width height : Z)
| CLEAR_CANVAS
| JOIN_ROOM
| LEAVE_ROOM.

(** [BaseEvent] with the payload of its variant.  The fields are read as
    [Event.userId e], [Event.sequence e], ... *)
Module Event.
Record WhiteboardEvent : Type := mk {
  userId : string;
  roomId : string;
  timestamp : Z;
  sequence : option Z;       (* [sequence?: number] *)
  body : EventBody
}.

Definition type (e : WhiteboardEvent) : string :=
  match body e with
  | DRAW_LINE _ _ _ => "DRAW_LINE"
  | DRAW_PATH _ _ _ => "DRAW_PATH"
  | ERASE _ _ _ _ => "ERASE"
  | CLEAR_CANVAS => "CLEAR_CANVAS"
  | JOIN_ROOM => "JOIN_ROOM"
  | LEAVE_ROOM => "LEAVE_ROOM"
  end.
End Event.
Abbreviation WhiteboardEvent := Event.WhiteboardEvent.

(** ** EventStoreService *)

Module EventStoreService.

(** [private events: Map<string, WhiteboardEvent[]>] and the sequence
    manager handed to the constructor.  The manager is one object, shared
    with whoever constructed it: its state is a component of the state of
    the whole, and direct calls on it act on that same component. *)
Record state : Type := mk {
  events : gmap string (list WhiteboardEvent);
  sequenceManager : SequenceManagerService.state
}.

Definition init : state := mk ∅ SequenceManagerService.init.

(** [roomEvents[mid].sequence || 0]: reading a property of [undefined]
    (an index outside the array) throws a [TypeError]. *)
Definition sequence_at (roomEvents : list WhiteboardEvent) (mid : nat)
  : outcome Z :=
  match roomEvents !! mid with
  | Some ev => Returned (or_zero (Event.sequence ev))
  | None => Thrown "TypeError: Cannot read properties of undefined"
  end.

(** The [while (left < right)] loop of [insertEvent], started with
    [left = lo] and [right = hi]; it returns the final value of [left]. *)
Equations? search (roomEvents : list WhiteboardEvent) (eventSeq : Z)
    (lo hi : nat) : outcome nat by wf (hi - lo)%nat lt :=
  search roomEvents eventSeq lo hi with Logic.inspect (lo <? hi)%nat => {
    | exist _ false _ => Returned lo
    | exist _ true Hlt =>
        let mid := ((lo + hi) / 2)%nat in
        match sequence_at roomEvents mid with
        | Thrown err => Thrown err
        | Returned midSeq =>
            if midSeq <? eventSeq
            then search roomEvents eventSeq (mid + 1)%nat hi
            else search roomEvents eventSeq lo mid
        end
  }.
Proof.
  all: apply Nat.ltb_lt in Hlt;
    pose proof (Nat.div_mod_eq (lo + hi) 2) as Hd;
    pose proof (Nat.mod_upper_bound (lo + hi) 2);
    fold mid in Hd; lia.
Qed.

(** [roomEvents.splice(start, 0, event)]; a [start] beyond the end is
    clamped to the length. *)
Definition splice_in (roomEvents : list WhiteboardEvent) (start : nat)
    (event : WhiteboardEvent) : list WhiteboardEvent :=
  take start roomEvents ++ event :: drop start roomEvents.

(** [insertEvent] mutates the array it is given; the new contents are
    returned. *)
Definition insertEvent (roomEvents : list WhiteboardEvent)
    (event : WhiteboardEvent) : outcome (list WhiteboardEvent) :=
  let eventSeq := or_zero (Event.sequence event) in
  left ← search roomEvents eventSeq 0%nat (length roomEvents);
  mret (splice_in roomEvents left event).

(** [addEvent(roomId, event)]; [now] is what [Date.now()] yields during
    the call.  Returns the enriched event and the new state. *)
Definition addEvent (roomId : string) (event : WhiteboardEvent) (now : Z)
    (s : state) : outcome (WhiteboardEvent * state) :=
  let '(sequence, sm) :=
    SequenceManagerService.getNextSequence roomId (sequenceManager s) in
  let enrichedEvent :=
    Event.mk (Event.userId event) (Event.roomId event)
      now (Some sequence) (Event.body event) in
  let evs :=
    match events s !! roomId with
    | None => <[roomId := []]> (events s)
    | Some _ => events s
    end in
  match evs !! roomId with
  | None => Thrown "TypeError: Cannot read properties of undefined"
  | Some roomEvents =>
      roomEvents' ← insertEvent roomEvents enrichedEvent;
      mret (enrichedEvent, mk (<[roomId := roomEvents']> evs) sm)
  end.

Definition getEvents (roomId : string) (s : state) : list WhiteboardEvent :=
  match events s !! roomId with
  | Some roomEvents => roomEvents
  | None => []
  end.

(** The predicate of the [filter]:
    [event.sequence && event.sequence > afterSequence]. *)
Definition is_after (afterSequence : number) (event : WhiteboardEvent)
  : bool :=
  match Event.sequence event with
  | Some v => truthy v && gt_number v afterSequence
  | None => false
  end.

Definition getEventsAfter (roomId : string) (afterSequence : number)
    (s : state) : list WhiteboardEvent :=
  let roomEvents :=
    match events s !! roomId with
    | Some roomEvents => roomEvents
    | None => []
    end in
  List.filter (is_after afterSequence) roomEvents.

Definition clearRoomEvents (roomId : string) (s : state) : state :=
  mk (delete roomId (events s))
     (SequenceManagerService.resetSequence roomId (sequenceManager s)).

(** The methods as calls.  [Manager c] is a call made directly on the
    shared sequence manager, not through the store. *)
Inductive call : Type :=
| AddEvent (roomId : string) (event : WhiteboardEvent) (now : Z)
| GetEvents (roomId : string)
| GetEventsAfter (roomId : string) (afterSequence : number)
| ClearRoomEvents (roomId : string)
| Manager (c : SequenceManagerService.call).

Inductive value : Type :=
| VEvent (e : WhiteboardEvent)
| VEvents (l : list WhiteboardEvent)
| VNumber (n : Z)
| VUndefined.

Definition exec (c : call) (s : state) : outcome (value * state) :=
  match c with
  | AddEvent r e now =>
      '(e', s') ← addEvent r e now s; mret (VEvent e', s')
  | GetEvents r => mret (VEvents (getEvents r s), s)
  | GetEventsAfter r k => mret (VEvents (getEventsAfter r k s), s)
  | ClearRoomEvents r => mret (VUndefined, clearRoomEvents r s)
  | Manager c =>
      let '(v, sm) := SequenceManagerService.exec c (sequenceManager s) in
      mret (from_option VNumber VUndefined v, mk (events s) sm)
  end.

(** A trace of calls, one after the other. *)
Fixpoint run (tr : list call) (s : state) : outcome state :=
  match tr with
  | [] => mret s
  | c :: tr' => '(_, s') ← exec c s; run tr' s'
  end.

(** The key the binary search compares: [event.sequence || 0]. *)
Definition key (e : WhiteboardEvent) : Z := or_zero (Event.sequence e).

(** Ascending by key, duplicates allowed; and strictly ascending. *)
Definition ascending (l : list WhiteboardEvent) : Prop :=
  StronglySorted Z.le (key <$> l).
Definition strictly_ascending (l : list WhiteboardEvent) : Prop :=
  StronglySorted Z.lt (key <$> l).

(** The [addEvent(roomId, ...)] calls of a trace: the event given and
    the time of the call. *)
Fixpoint added (roomId : string) (tr : list call)
  : list (WhiteboardEvent * Z) :=
  match tr with
  | [] => []
  | AddEvent r e now :: tr' =>
      if decide (r = roomId)
      then (e, now) :: added roomId tr'
      else added roomId tr'
  | _ :: tr' => added roomId tr'
  end.

(** A call that leaves the counter and the log of [roomId] alone, or is an
    [addEvent] for it. *)
Definition adds_or_elsewhere (roomId : string) (c : call) : bool :=
  match c with
  | AddEvent _ _ _ | GetEvents _ | GetEventsAfter _ _ => true
  | ClearRoomEvents r => negb (bool_decide (r = roomId))
  | Manager (SequenceManagerService.GetCurrentSequence _) => true
  | Manager c =>
      negb (bool_decide (SequenceManagerService.call_room c = roomId))
  end.

(** No [resetSequence] made directly on the shared manager. *)
Definition no_direct_reset (tr : list call) : bool :=
  forallb (fun c => match c with
                    | Manager (SequenceManagerService.ResetSequence _) => false
                    | _ => true
                    end) tr.

(** [event.sequence > k], as a JavaScript comparison: false when the
    sequence is [undefined]. *)
Definition sequence_gt (k : Z) (event : WhiteboardEvent) : bool :=
  match Event.sequence event with
  | Some v => k <? v
  | None => false
  end.

(** What [addEvent] makes of its argument: the same event, with the
    sequence number and the time of admission. *)
Definition stamp (event : WhiteboardEvent) (sequence now : Z)
  : WhiteboardEvent :=
  Event.mk (Event.userId event) (Event.roomId event) now (Some sequence)
    (Event.body event).

(** Every event of a log carries a sequence number, at least 1. *)
Definition stamped (l : list WhiteboardEvent) : Prop :=
  Forall (fun e => ∃ v, Event.sequence e = Some v ∧ 1 ≤ v) l.

(** Invariant of every state the calls can reach. *)
Record consistent (s : state) : Prop := {
  counters_positive :
    map_Forall (fun _ v => 1 ≤ v)
      (SequenceManagerService.sequences (sequenceManager s));
  logs_ascending : ∀ r, ascending (getEvents r s);
  logs_stamped : ∀ r, stamped (getEvents r s)
}.

(** The keys of the log of a room do not exceed the counter of the
    room. *)
Definition below_counter (roomId : string) (s : state) : Prop :=
  Forall (fun e => key e ≤ SequenceManagerService.getCurrentSequence roomId
                             (sequenceManager s))
    (getEvents roomId s).

(** Invariant of the states reached without a direct reset of the
    manager: each log is strictly ascending and below its counter. *)
Definition in_step (s : state) : Prop :=
  ∀ r, strictly_ascending (getEvents r s) ∧ below_counter r s.

(** The events of a list of admissions, stamped with consecutive sequence
    numbers from [n] on. *)
Fixpoint stamp_from (n : Z) (evs : list (WhiteboardEvent * Z))
  : list WhiteboardEvent :=
  match evs with
  | [] => []
  | (e, now) :: evs' => stamp e n now :: stamp_from (n + 1) evs'
  end.

(** The room a call is addressed to. *)
Definition call_room (c : call) : string :=
  match c with
  | AddEvent r _ _ | GetEvents r | GetEventsAfter r _ | ClearRoomEvents r => r
  | Manager c => SequenceManagerService.call_room c
  end.

(** The sequence manager is used through the store only: no direct
    [getNextSequence] or [resetSequence]. *)
Definition store_only (tr : list call) : bool :=
  forallb (fun c => match c with
                    | Manager (SequenceManagerService.GetCurrentSequence _) =>
                        true
                    | Manager _ => false
                    | _ => true
                    end) tr.

(** [insertEvent] called for each event of a list, in the order of the
    list, on the same array. *)
Fixpoint insert_all (evs : list WhiteboardEvent)
    (roomEvents : list WhiteboardEvent) : outcome (list WhiteboardEvent) :=
  match evs with
  | [] => mret roomEvents
  | e :: evs' =>
      roomEvents' ← insertEvent roomEvents e; insert_all evs' roomEvents'
  end.

(** [!(event.sequence > k)] for an event that has a sequence:
    [event.sequence <= k]. *)
Definition sequence_le (k : Z) (event : WhiteboardEvent) : bool :=
  match Event.sequence event with
  | Some v => v <=? k
  | None => false
  end.

(** The log of every room carries the sequence numbers [1, 2, ..., n], [n]
    being the counter of the room. *)
Definition dense (s : state) : Prop :=
  ∀ r,
    Event.sequence <$> getEvents r s
    = (fun i => Some (Z.of_nat i)) <$> seq 1 (length (getEvents r s))
    ∧ SequenceManagerService.getCurrentSequence r (sequenceManager s)
      = Z.of_nat (length (getEvents r s)).

End EventStoreService.

(** ** The event-store router: [GET /:roomId] *)

Module EventStoreRouter.

(** *** [parseInt(string)] with no radix (ECMAScript 19.2.5)

    Leading white space is skipped, then an optional sign, then an
    optional [0x]/[0X] prefix that selects radix 16; the longest prefix of
    digits of the radix is the value, and no digit at all gives [NaN].
    The value is exact here ([Z]); characters are those of Rocq strings
    (code units below 256). *)

Definition is_white_space (c : ascii) : bool :=
  let n := nat_of_ascii c in
  bool_decide (n ∈ [9; 10; 11; 12; 13; 32; 160]%nat).

Fixpoint trim_start (s : string) : string :=
  match s with
  | String c s' => if is_white_space c then trim_start s' else s
  | EmptyString => s
  end.

Definition digit_value (c : ascii) : option Z :=
  let n := Z.of_nat (nat_of_ascii c) in
  if (48 <=? n) && (n <=? 57) then Some (n - 48)
  else if (97 <=? n) && (n <=? 122) then Some (n - 97 + 10)
  else if (65 <=? n) && (n <=? 90) then Some (n - 65 + 10)
  else None.

(** The digits of the longest prefix of [s] made of digits of the radix. *)
Fixpoint digits_prefix (radix : Z) (s : string) : list Z :=
  match s with
  | String c s' =>
      match digit_value c with
      | Some d => if d <? radix then d :: digits_prefix radix s' else []
      | None => []
      end
  | EmptyString => []
  end.

Definition parseInt (input : string) : number :=
  let str := trim_start input in
  let '(sign, str) :=
    match str with
    | String "-"%char rest => (-1, rest)
    | String "+"%char rest => (1, rest)
    | _ => (1, str)
    end in
  let '(radix, str) :=
    match str with
    | String "0"%char (String "x"%char rest) => (16, rest)
    | String "0"%char (String "X"%char rest) => (16, rest)
    | _ => (10, str)
    end in
  match digits_prefix radix str with
  | [] => NaN
  | ds => Int (sign * fold_left (fun acc d => acc * radix + d) ds 0)
  end.

(** *** The handler *)

(** The JSON body of the reply. *)
Record body : Type := mkBody {
  roomId : string;
  events : list WhiteboardEvent;
  count : nat;
  lastSequence : Z
}.

Inductive response : Type :=
| Json (b : body)                       (* [res.json(...)] *)
| Status500 (error : string).           (* [res.status(500).json(...)] *)

(** [if (after)] for [after : string | undefined]: the empty string is
    falsy. *)
Definition truthy_param (after : option string) : bool :=
  match after with
  | Some a => negb (bool_decide (a = ""))
  | None => false
  end.

(** [events[events.length - 1]?.sequence || 0] *)
Definition last_sequence (events : list WhiteboardEvent) : Z :=
  or_zero (last events ≫= Event.sequence).

(** [router.get('/:roomId', ...)]: [room] is [req.params.roomId], [after]
    is [req.query.after] (a string when given once, [undefined] when
    absent), [s] the state of the store the router owns. *)
Definition get_room (room : string) (after : option string)
    (s : EventStoreService.state) : response :=
  let attempt : outcome body :=
    events ←
      (if truthy_param after
       then mret (EventStoreService.getEventsAfter room
                    (parseInt (default "" after)) s)
       else mret (EventStoreService.getEvents room s));
    mret (mkBody room events (length events) (last_sequence events)) in
  match attempt with
  | Returned b => Json b
  | Thrown _ => Status500 "Internal Server Error"
  end.

(** *** [POST /] *)

Inductive post_response : Type :=
| PostJson (success : bool) (event : WhiteboardEvent) (message : string)
| PostStatus500 (error : string).

(** [router.post('/', ...)] for a body [{ roomId: room, event }]; [now] is
    what [Date.now()] yields during the call.  A throw inside [addEvent]
    can only come after the counter of the room has been advanced and the
    array of the room has been created, and before the array is changed:
    that is the state the [catch] branch is left with. *)
Definition post_event (room : string) (event : WhiteboardEvent) (now : Z)
    (s : EventStoreService.state) : post_response * EventStoreService.state :=
  match EventStoreService.addEvent room event now s with
  | Returned (processedEvent, s') =>
      (PostJson true processedEvent "Event processed and stored", s')
  | Thrown _ =>
      (PostStatus500 "Internal Server Error",
       EventStoreService.mk
         (match EventStoreService.events s !! room with
          | None => <[room := []]> (EventStoreService.events s)
          | Some _ => EventStoreService.events s
          end)
         (snd (SequenceManagerService.getNextSequence room
                 (EventStoreService.sequenceManager s))))
  end.

End EventStoreRouter.

(** ** PresenceStore (frontend) *)

Module UserPresence.
Record t : Type := mk {
  userId : string;
  userName : string;
  color : string;
  joinedAt : Z
}.
End UserPresence.

Module CursorPosition.
Record t : Type := mk {
  x : Z;
  y : Z;
  lastUpdate : Z
}.
End CursorPosition.

Module PresenceStore.

(** The contents of the two signals [_activeUsers] and [_userCursors]. *)
Record state : Type := mk {
  activeUsers : gmap string UserPresence.t;
  userCursors : gmap string CursorPosition.t
}.

Definition init : state := mk ∅ ∅.

Definition USER_COLORS : list string :=
  [ "#3B82F6"; "#10B981"; "#F59E0B"; "#EF4444"; "#8B5CF6"; "#EC4899";
    "#06B6D4"; "#84CC16"; "#F97316"; "#6366F1"; "#14B8A6"; "#A855F7" ].

(** [ToInt32]: the signed 32-bit reading of an integer. *)
Definition to_int32 (z : Z) : Z :=
  let m := z mod 2 ^ 32 in
  if m <? 2 ^ 31 then m else m - 2 ^ 32.

(** [a << n] on 32-bit integers. *)
Definition shl32 (a : Z) (n : Z) : Z :=
  to_int32 (Z.shiftl (to_int32 a) (Z.land n 31)).

(** The hash loop of [getUserColor]:
    [hash = userId.charCodeAt(i) + ((hash << 5) - hash)]. *)
Definition hash_step (hash : Z) (c : ascii) : Z :=
  Z.of_nat (nat_of_ascii c) + (shl32 hash 5 - hash).

Definition getUserColor (userId : string) : string :=
  let hash := fold_left hash_step (String.list_ascii_of_string userId) 0 in
  let index := Z.abs hash mod Z.of_nat (length USER_COLORS) in
  nth (Z.to_nat index) USER_COLORS "".

(** [color || this.getUserColor(userId)] for [color?: string]. *)
Definition color_or_default (color : option string) (userId : string)
  : string :=
  match color with
  | Some c => if bool_decide (c = "") then getUserColor userId else c
  | None => getUserColor userId
  end.

(** [addUser(userId, userName, color?)], [now] being [Date.now()]. *)
Definition addUser (userId userName : string) (color : option string)
    (now : Z) (s : state) : state :=
  let users := activeUsers s in
  match users !! userId with
  | Some _ => s
  | None =>
      let userColor := color_or_default color userId in
      let presence := UserPresence.mk userId userName userColor now in
      mk (<[userId := presence]> users) (userCursors s)
  end.

Definition removeUser (userId : string) (s : state) : state :=
  let users := delete userId (activeUsers s) in
  let cursors := delete userId (userCursors s) in
  mk users cursors.

(** [updateCursor(userId, x, y)], [now] being [Date.now()]. *)
Definition updateCursor (userId : string) (x y : Z) (now : Z) (s : state)
  : state :=
  match activeUsers s !! userId with
  | None => s
  | Some _ =>
      let cursors := <[userId := CursorPosition.mk x y now]> (userCursors s) in
      mk (activeUsers s) cursors
  end.

Definition clearAll (s : state) : state := mk ∅ ∅.

Definition getUser (userId : string) (s : state) : option UserPresence.t :=
  activeUsers s !! userId.

Definition getCursor (userId : string) (s : state)
  : option CursorPosition.t :=
  userCursors s !! userId.

Definition isUserActive (userId : string) (s : state) : bool :=
  bool_decide (is_Some (activeUsers s !! userId)).

(** The mutating methods as calls. *)
Inductive call : Type :=
| AddUser (userId userName : string) (color : option string) (now : Z)
| RemoveUser (userId : string)
| UpdateCursor (userId : string) (x y : Z) (now : Z)
| ClearAll.

Definition exec (c : call) (s : state) : state :=
  match c with
  | AddUser u n col now => addUser u n col now s
  | RemoveUser u => removeUser u s
  | UpdateCursor u x y now => updateCursor u x y now s
  | ClearAll => clearAll s
  end.

Definition run (tr : list call) (s : state) : state :=
  fold_left (fun s c => exec c s) tr s.

(** Every user with a cursor is an active user. *)
Definition cursors_of_active (s : state) : Prop :=
  dom (userCursors s) ⊆ dom (activeUsers s).

(** The computed signal [activeUserCount]: [this._activeUsers().size]. *)
Definition activeUserCount (s : state) : nat := size (activeUsers s).

(** Every entry is filed under the [userId] it carries, with a color. *)
Definition well_formed (s : state) : Prop :=
  map_Forall (fun u p => UserPresence.userId p = u
                         ∧ UserPresence.color p ≠ "")
    (activeUsers s).

End PresenceStore.

(** ** ConnectionStatusComponent (frontend) *)

Module ConnectionStatusComponent.

(** The computed signals, as functions of what they read from the
    connection store: [connectionStatus()] and [sessionId()]. *)






End ConnectionStatusComponent.

(** ** RoomSelectorComponent (frontend): the room id input *)

Module RoomSelectorComponent.

(** The signals the validity of the input depends on. *)
Record state : Type := mk {
  roomIdInput : string;
  isLoading : bool;
  errorMessage : option string;
  successMessage : option string
}.

(** The constructor: the input starts as [initialRoomId] when that is a
    non-empty string. *)
Definition init (initialRoomId : string) : state :=
  mk (if bool_decide (initialRoomId = "") then "" else initialRoomId)
     false None None.

(** [String.prototype.trim]: white space is dropped at both ends (the white
    space of [parseInt], on the same characters). *)
Fixpoint trim_end (s : string) : string :=
  match s with
  | EmptyString => EmptyString
  | String c s' =>
      match trim_end s' with
      | EmptyString =>
          if EventStoreRouter.is_white_space c
          then EmptyString else String c EmptyString
      | t => String c t
      end
  end.

Definition trim (s : string) : string :=
  trim_end (EventStoreRouter.trim_start s).

Definition isValidRoomId (s : state) : bool :=
  let id := trim (roomIdInput s) in
  (3 <=? String.length id)%nat.

Definition canJoin (s : state) : bool :=
  isValidRoomId s && negb (isLoading s).

Definition canCreate (s : state) : bool := negb (isLoading s).

Definition clearMessages (s : state) : state :=
  mk (roomIdInput s) (isLoading s) None None.

Definition onRoomIdChange (value : string) (s : state) : state :=
  clearMessages (mk value (isLoading s) (errorMessage s) (successMessage s)).

(** Only white space. *)
Fixpoint blank (s : string) : bool :=
  match s with
  | EmptyString => true
  | String c s' => EventStoreRouter.is_white_space c && blank s'
  end.

End RoomSelectorComponent.

(** ** Sample data, for the concrete instances *)

Module Sample.

Definition draw_line (user : string) (seq : option Z) : WhiteboardEvent :=
  Event.mk user "room-1" 0 seq (DRAW_LINE [(0, 0); (100, 100)] "#000000" 2).

Definition erase (user : string) (seq : option Z) : WhiteboardEvent :=
  Event.mk user "room-1" 0 seq (ERASE 10 10 50 50).

End Sample.

(** * Properties *)

(** ** Truthiness *)

Lemma or_zero_default x : or_zero x = default 0 x.
Proof.
  destruct x as [v|]; simpl; [|done].
  unfold truthy. destruct (Z.eqb_spec v 0); simpl; congruence.
Qed.

Lemma truthy_pos v : 0 < v → truthy v = true.
Proof. intros Hv. unfold truthy. destruct (Z.eqb_spec v 0); [lia|done]. Qed.

(** ** The sequencer *)

Section Sequencer.
Import SequenceManagerService.

Implicit Types (r : string) (s : state) (tr : list call).

Lemma getCurrentSequence_init r : getCurrentSequence r init = 0.
Proof. unfold getCurrentSequence, init. simpl. by rewrite lookup_empty. Qed.

Lemma getCurrentSequence_reset r s :
  getCurrentSequence r (resetSequence r s) = 0.
Proof.
  unfold getCurrentSequence, resetSequence. simpl.
  by rewrite lookup_delete_eq.
Qed.

Lemma getCurrentSequence_reset_ne r r' s :
  r' ≠ r →
  getCurrentSequence r (resetSequence r' s) = getCurrentSequence r s.
Proof.
  intros Hne. unfold getCurrentSequence, resetSequence. simpl.
  by rewrite lookup_delete_ne.
Qed.

(** A call returns the counter plus one and leaves the counter there. *)
Lemma getNextSequence_fst r s :
  fst (getNextSequence r s) = getCurrentSequence r s + 1.
Proof. done. Qed.

Lemma getCurrentSequence_next r s :
  getCurrentSequence r (snd (getNextSequence r s))
  = getCurrentSequence r s + 1.
Proof.
  unfold getCurrentSequence, getNextSequence. simpl.
  rewrite lookup_insert_eq. by rewrite !or_zero_default.
Qed.

Lemma getCurrentSequence_next_ne r r' s :
  r' ≠ r →
  getCurrentSequence r (snd (getNextSequence r' s))
  = getCurrentSequence r s.
Proof.
  intros Hne. unfold getCurrentSequence, getNextSequence. simpl.
  by rewrite lookup_insert_ne.
Qed.

(** From a counter at [c], the calls for [r] return [c+1, c+2, ...] as
    long as [r] is not reset; calls for other rooms do not matter. *)
Lemma issued_from r tr : ∀ s,
  never_reset r tr = true →
  issued r tr s
  = (fun i => getCurrentSequence r s + Z.of_nat i)
      <$> seq 1 (next_calls r tr).
Proof.
  induction tr as [|c tr IH]; intros s Hnr; [done|].
  simpl in Hnr. apply andb_true_iff in Hnr as [Hc Hnr].
  destruct c as [r'|r'|r']; simpl.
  - unfold next_calls. simpl.
    destruct (decide (r' = r)) as [->|Hne].
    + rewrite bool_decide_eq_true_2 by done. simpl.
      rewrite (IH _ Hnr). fold (next_calls r tr).
      f_equal.
      change (mk (<[r:=or_zero (sequences s !! r) + 1]> (sequences s)))
        with (snd (getNextSequence r s)).
      rewrite getCurrentSequence_next.
      change (list_fmap nat Z) with (@fmap list _ nat Z).
      rewrite <- (fmap_S_seq 1), <- list_fmap_compose.
      apply list_fmap_ext. intros _ i _. simpl. lia.
    + rewrite bool_decide_eq_false_2 by done.
      rewrite (IH _ Hnr). fold (next_calls r tr).
      change (mk (<[r':=or_zero (sequences s !! r') + 1]> (sequences s)))
        with (snd (getNextSequence r' s)).
      by rewrite getCurrentSequence_next_ne.
  - by rewrite (IH _ Hnr).
  - simpl in Hc. apply negb_true_iff, bool_decide_eq_false in Hc.
    rewrite (IH _ Hnr). unfold next_calls. simpl.
    by rewrite getCurrentSequence_reset_ne.
Qed.

(** C1.  Monotonic sequencing: counting from a fresh sequence manager, or
    from one in which the room has just been reset, the [getNextSequence]
    calls for a room return [1, 2, ..., n] in call order -- the n-th call
    returns exactly [n] -- whatever calls for other rooms are made in
    between. *)
Theorem getNextSequence_counts_from_one r tr :
  never_reset r tr = true →
  issued r tr init = Z.of_nat <$> seq 1 (next_calls r tr)
  ∧ ∀ s, issued r tr (resetSequence r s)
         = Z.of_nat <$> seq 1 (next_calls r tr).
Proof.
  intros Hnr. split; [|intros s]; rewrite (issued_from _ _ _ Hnr).
  - by rewrite getCurrentSequence_init.
  - by rewrite getCurrentSequence_reset.
Qed.

Lemma getNextSequence_counts_from_one_witness :
  let tr := [GetNextSequence "room-1"; GetNextSequence "room-2";
             GetCurrentSequence "room-1"; GetNextSequence "room-1";
             ResetSequence "room-2"; GetNextSequence "room-1"] in
  never_reset "room-1" tr = true
  ∧ issued "room-1" tr init = [1; 2; 3].
Proof.
  split; [reflexivity|].
  apply (getNextSequence_counts_from_one "room-1"). reflexivity.
Defined.

End Sequencer.

(** ** The event log *)

Section EventLog.
Import EventStoreService.

Implicit Types (r : string) (s : state) (tr : list call)
  (l : list WhiteboardEvent) (e : WhiteboardEvent).

(** *** The binary search *)

Lemma midpoint_bounds (lo hi : nat) :
  (lo < hi)%nat → (lo ≤ (lo + hi) / 2 < hi)%nat.
Proof.
  intros Hlt.
  pose proof (Nat.div_mod_eq (lo + hi) 2).
  pose proof (Nat.mod_upper_bound (lo + hi) 2). lia.
Qed.

Lemma sequence_at_lookup l i e :
  l !! i = Some e → sequence_at l i = Returned (key e).
Proof. intros H. unfold sequence_at. by rewrite H. Qed.

(** One turn of the [while] loop. *)
Lemma search_unfold l x (lo hi : nat) :
  search l x lo hi
  = if (lo <? hi)%nat
    then match sequence_at l ((lo + hi) / 2) with
         | Returned midSeq =>
             if midSeq <? x
             then search l x ((lo + hi) / 2 + 1) hi
             else search l x lo ((lo + hi) / 2)
         | Thrown err => Thrown err
         end
    else Returned lo.
Proof.
  funelim (search l x lo hi);
    match goal with H : (_ <? _)%nat = _ |- _ => by rewrite H end.
Qed.

(** The loop never reads outside the array: it returns a position [p]
    between the bounds it was started with; the element before [p], if
    the loop looked at it, is smaller than [x], and the element at [p], if
    the loop looked at it, is not. *)
Lemma search_spec l x : ∀ (n lo hi : nat),
  (hi - lo)%nat = n →
  (lo ≤ hi ≤ length l)%nat →
  ∃ p, search l x lo hi = Returned p
       ∧ (lo ≤ p ≤ hi)%nat
       ∧ (p = lo ∨ ∃ e, l !! (p - 1)%nat = Some e ∧ key e < x)
       ∧ (p = hi ∨ ∃ e, l !! p = Some e ∧ x ≤ key e).
Proof.
  induction n as [n IH] using lt_wf_ind. intros lo hi Hn Hb.
  rewrite search_unfold.
  destruct (Nat.ltb_spec lo hi) as [Hlt|Hge].
  - pose proof (midpoint_bounds lo hi Hlt) as Hmid.
    set (mid := ((lo + hi) / 2)%nat) in *.
    destruct (lookup_lt_is_Some_2 l mid) as [em Hem]; [lia|].
    rewrite (sequence_at_lookup _ _ _ Hem).
    destruct (Z.ltb_spec (key em) x) as [Hless|Hnot].
    + destruct (IH (hi - (mid + 1))%nat ltac:(lia) (mid + 1)%nat hi
                  eq_refl ltac:(lia)) as (p & -> & Hp & Hbefore & Hat).
      exists p. split; [done|]. split; [lia|]. split; [|done].
      right. destruct Hbefore as [->|Hbefore]; [|done].
      exists em. by replace (mid + 1 - 1)%nat with mid by lia.
    + destruct (IH (mid - lo)%nat ltac:(lia) lo mid
                  eq_refl ltac:(lia)) as (p & -> & Hp & Hbefore & Hat).
      exists p. split; [done|]. split; [lia|]. split; [done|].
      right. destruct Hat as [->|Hat]; [|done].
      by exists em.
  - exists lo. split; [done|]. split; [lia|]. split; [by left|].
    left. lia.
Qed.

(** Sortedness in terms of positions. *)
Lemma ascending_lookup l i j ei ej :
  ascending l → (i ≤ j)%nat →
  l !! i = Some ei → l !! j = Some ej → key ei ≤ key ej.
Proof.
  unfold ascending. revert i j.
  induction l as [|a l IH]; intros i j Hs Hij Hi Hj; [done|].
  rewrite fmap_cons in Hs. apply StronglySorted_cons in Hs as [Hall Hs].
  destruct i as [|i], j as [|j]; simpl in *; simplify_eq; try lia.
  - rewrite Forall_fmap, Forall_lookup in Hall. by apply (Hall j).
  - apply (IH i j); [done|lia|done|done].
Qed.

(** On a sorted array the position splits the array: smaller keys
    before, the others from there on. *)
Lemma search_partition l x :
  ascending l →
  ∃ p, search l x 0 (length l) = Returned p
       ∧ (p ≤ length l)%nat
       ∧ Forall (fun e => key e < x) (take p l)
       ∧ Forall (fun e => x ≤ key e) (drop p l).
Proof.
  intros Hs.
  destruct (search_spec l x _ 0 (length l) eq_refl ltac:(lia))
    as (p & Hsearch & Hp & Hbefore & Hat).
  exists p. split; [done|]. split; [lia|]. split.
  - apply Forall_lookup. intros i e Hi.
    apply lookup_take_Some in Hi as [Hi Hip].
    destruct Hbefore as [->|(e' & He' & Hlt)]; [lia|].
    pose proof (ascending_lookup l i (p - 1) e e' Hs ltac:(lia) Hi He').
    lia.
  - apply Forall_lookup. intros i e Hi. rewrite lookup_drop in Hi.
    destruct Hat as [->|(e' & He' & Hle)].
    + apply lookup_lt_Some in Hi. lia.
    + pose proof (ascending_lookup l p (p + i) e' e Hs ltac:(lia) He' Hi).
      lia.
Qed.

(** When every key of the array is smaller, the position is the end. *)
Lemma search_tail l x :
  Forall (fun e => key e < x) l →
  search l x 0 (length l) = Returned (length l).
Proof.
  intros Hall.
  destruct (search_spec l x _ 0 (length l) eq_refl ltac:(lia))
    as (p & Hsearch & Hp & _ & Hat).
  destruct Hat as [->|(e' & He' & Hle)]; [done|].
  rewrite Forall_lookup in Hall. specialize (Hall _ _ He'). simpl in Hall.
  lia.
Qed.

(** *** Insertion *)

Lemma ascending_app l1 l2 :
  ascending (l1 ++ l2) ↔
    (∀ e1 e2, e1 ∈ l1 → e2 ∈ l2 → key e1 ≤ key e2)
    ∧ ascending l1 ∧ ascending l2.
Proof.
  unfold ascending. rewrite fmap_app, StronglySorted_app.
  split; intros (Hcross & H1 & H2); (split; [|done]).
  - intros e1 e2 He1 He2. apply Hcross; by apply list_elem_of_fmap_2.
  - intros x1 x2 (e1 & -> & He1)%list_elem_of_fmap
      (e2 & -> & He2)%list_elem_of_fmap. by apply Hcross.
Qed.

Lemma ascending_cons e l :
  ascending (e :: l) ↔ Forall (fun e' => key e ≤ key e') l ∧ ascending l.
Proof.
  unfold ascending. rewrite fmap_cons, StronglySorted_cons, Forall_fmap.
  done.
Qed.

Lemma splice_in_perm l p e : splice_in l p e ≡ₚ e :: l.
Proof.
  unfold splice_in. rewrite <- Permutation_middle.
  by rewrite take_drop.
Qed.

(** [insertEvent] returns for every array and every event. *)
Lemma insertEvent_returns l e :
  ∃ p, (p ≤ length l)%nat ∧ insertEvent l e = Returned (splice_in l p e).
Proof.
  unfold insertEvent.
  destruct (search_spec l (or_zero (Event.sequence e)) _ 0 (length l)
              eq_refl ltac:(lia)) as (p & -> & Hp & _).
  exists p. split; [lia|done].
Qed.

(** It keeps a sorted array sorted, whatever key the event has. *)
Lemma insertEvent_ascending l e :
  ascending l →
  ∃ l', insertEvent l e = Returned l' ∧ l' ≡ₚ e :: l ∧ ascending l'.
Proof.
  intros Hs. unfold insertEvent.
  destruct (search_partition l (key e) Hs) as (p & Hp & _ & Hlt & Hge).
  fold (key e). rewrite Hp. simpl.
  exists (splice_in l p e). split; [done|].
  split; [apply splice_in_perm|].
  rewrite <- (take_drop p l) in Hs.
  apply ascending_app in Hs as (Hcross & Htake & Hdrop).
  unfold splice_in. apply ascending_app. split; [|split; [done|]].
  - intros e1 e2 He1 [->|He2]%elem_of_cons; [|by apply Hcross].
    rewrite Forall_forall in Hlt. specialize (Hlt _ He1). simpl in Hlt.
    lia.
  - by apply ascending_cons.
Qed.

(** An event with a key above all others goes to the end. *)
Lemma insertEvent_tail l e :
  Forall (fun e' => key e' < key e) l →
  insertEvent l e = Returned (l ++ [e]).
Proof.
  intros Hall. unfold insertEvent. fold (key e).
  rewrite (search_tail _ _ Hall). simpl. unfold splice_in.
  by rewrite firstn_all, drop_all.
Qed.

(** *** Admission *)

Lemma getEvents_insert r r' l' evs sm :
  getEvents r (mk (<[r' := l']> evs) sm)
  = if decide (r' = r) then l' else getEvents r (mk evs sm).
Proof.
  unfold getEvents. simpl. rewrite lookup_insert.
  by destruct (decide (r' = r)).
Qed.

(** [addEvent] as one insertion into the log of the room. *)
Lemma addEvent_eq r e now s :
  let '(n, sm) :=
    SequenceManagerService.getNextSequence r (sequenceManager s) in
  addEvent r e now s
  = (l' ← insertEvent (getEvents r s) (stamp e n now);
     mret (stamp e n now, mk (<[r := l']> (events s)) sm)).
Proof.
  unfold addEvent, getEvents, stamp. simpl.
  destruct (events s !! r) as [l|] eqn:Hr.
  - by rewrite Hr.
  - rewrite lookup_insert_eq.
    destruct (insertEvent [] _) as [l'|err]; simpl; [|done].
    unfold mret, outcome_ret. by rewrite insert_insert_eq.
Qed.

(** [addEvent] returns in every state: the stamped event, stored in the
    log of the room. *)
Lemma addEvent_returns r e now s :
  ∃ p, (p ≤ length (getEvents r s))%nat ∧
    let n := SequenceManagerService.getCurrentSequence r
               (sequenceManager s) + 1 in
    addEvent r e now s
    = Returned
        (stamp e n now,
         mk (<[r := splice_in (getEvents r s) p (stamp e n now)]> (events s))
            (snd (SequenceManagerService.getNextSequence r
                    (sequenceManager s)))).
Proof.
  pose proof (addEvent_eq r e now s) as Heq. simpl in Heq.
  set (n := SequenceManagerService.getCurrentSequence r
              (sequenceManager s) + 1).
  destruct (insertEvent_returns (getEvents r s) (stamp e n now))
    as (p & Hp & Hins).
  exists p. split; [done|]. simpl. fold n.
  rewrite Heq. unfold SequenceManagerService.getCurrentSequence in n.
  fold n. by rewrite Hins.
Qed.

(** *** What every reachable state satisfies *)

Lemma getEvents_clear r r' s :
  getEvents r (clearRoomEvents r' s)
  = if decide (r' = r) then [] else getEvents r s.
Proof.
  unfold getEvents, clearRoomEvents. simpl. rewrite lookup_delete.
  by destruct (decide (r' = r)).
Qed.

Lemma counter_nonneg r sm :
  map_Forall (fun _ v => 1 ≤ v) (SequenceManagerService.sequences sm) →
  0 ≤ SequenceManagerService.getCurrentSequence r sm.
Proof.
  intros Hpos. unfold SequenceManagerService.getCurrentSequence.
  rewrite or_zero_default.
  destruct (SequenceManagerService.sequences sm !! r) as [v|] eqn:Hv;
    simpl; [|lia].
  specialize (Hpos _ _ Hv). simpl in Hpos. lia.
Qed.

Lemma getNextSequence_positive r sm :
  map_Forall (fun _ v => 1 ≤ v) (SequenceManagerService.sequences sm) →
  map_Forall (fun _ v => 1 ≤ v)
    (SequenceManagerService.sequences
       (snd (SequenceManagerService.getNextSequence r sm))).
Proof.
  intros Hpos. simpl. apply map_Forall_insert_2; [|done].
  pose proof (counter_nonneg r sm Hpos) as Hc.
  unfold SequenceManagerService.getCurrentSequence in Hc. lia.
Qed.

Lemma consistent_init : consistent init.
Proof.
  split.
  - apply map_Forall_empty.
  - intros r. unfold getEvents, init. simpl. rewrite lookup_empty.
    constructor.
  - intros r. unfold getEvents, init. simpl. rewrite lookup_empty.
    constructor.
Qed.

(** Admission keeps the invariant; the log of the room gains the stamped
    event and nothing else. *)
Lemma addEvent_consistent r e now s :
  consistent s →
  let n := SequenceManagerService.getCurrentSequence r (sequenceManager s)
           + 1 in
  ∃ s', addEvent r e now s = Returned (stamp e n now, s')
        ∧ consistent s'
        ∧ getEvents r s' ≡ₚ stamp e n now :: getEvents r s
        ∧ (∀ r', r' ≠ r → getEvents r' s' = getEvents r' s)
        ∧ sequenceManager s'
          = snd (SequenceManagerService.getNextSequence r
                   (sequenceManager s)).
Proof.
  intros [Hpos Hasc Hst] n.
  pose proof (addEvent_eq r e now s) as Heq. simpl in Heq.
  unfold SequenceManagerService.getCurrentSequence in n. fold n in Heq.
  destruct (insertEvent_ascending (getEvents r s) (stamp e n now) (Hasc r))
    as (l' & Hins & Hperm & Hl').
  rewrite Hins in Heq. simpl in Heq. unfold mret, outcome_ret in Heq.
  eexists. split; [exact Heq|].
  split; [split|split; [|split]].
  - apply (getNextSequence_positive r _ Hpos).
  - intros r'. rewrite getEvents_insert. destruct (decide (r = r')); [done|].
    apply Hasc.
  - intros r'. rewrite getEvents_insert. destruct (decide (r = r')).
    + unfold stamped. rewrite Hperm. constructor; [|apply Hst].
      exists n. split; [done|].
      pose proof (counter_nonneg r _ Hpos) as Hc.
      unfold SequenceManagerService.getCurrentSequence in Hc. lia.
    + apply Hst.
  - rewrite getEvents_insert. by rewrite decide_True.
  - intros r' Hne. rewrite getEvents_insert. by rewrite decide_False.
  - done.
Qed.

Lemma clearRoomEvents_consistent r s :
  consistent s → consistent (clearRoomEvents r s).
Proof.
  intros [Hpos Hasc Hst]. split.
  - simpl. by apply map_Forall_delete.
  - intros r'. rewrite getEvents_clear.
    destruct (decide (r = r')); [constructor|apply Hasc].
  - intros r'. rewrite getEvents_clear.
    destruct (decide (r = r')); [constructor|apply Hst].
Qed.

Lemma manager_consistent c s :
  consistent s →
  consistent (mk (events s)
                (snd (SequenceManagerService.exec c (sequenceManager s)))).
Proof.
  intros [Hpos Hasc Hst]. split; [|done|done].
  destruct c as [r|r|r]; simpl.
  - apply (getNextSequence_positive r _ Hpos).
  - done.
  - by apply map_Forall_delete.
Qed.

(** No call throws, in any state. *)
Lemma exec_returns c s : ∃ v s', exec c s = Returned (v, s').
Proof.
  destruct c as [r e now|r|r k|r|c]; simpl; try by eauto.
  - destruct (addEvent_returns r e now s) as (p & _ & Hadd).
    simpl in Hadd. rewrite Hadd. simpl. by eauto.
  - destruct (SequenceManagerService.exec c (sequenceManager s)). by eauto.
Qed.

Lemma exec_consistent c s :
  consistent s →
  ∃ v s', exec c s = Returned (v, s') ∧ consistent s'.
Proof.
  intros Hs. destruct c as [r e now|r|r k|r|c]; simpl; try by eauto.
  - destruct (addEvent_consistent r e now s Hs) as (s' & -> & Hs' & _).
    simpl. by eauto.
  - eexists _, _. split; [done|]. by apply clearRoomEvents_consistent.
  - pose proof (manager_consistent c s Hs) as Hc.
    destruct (SequenceManagerService.exec c (sequenceManager s)).
    by eauto.
Qed.

Lemma run_consistent tr : ∀ s,
  consistent s → ∃ s', run tr s = Returned s' ∧ consistent s'.
Proof.
  induction tr as [|c tr IH]; intros s Hs; simpl; [by eauto|].
  destruct (exec_consistent c s Hs) as (v & s1 & -> & Hs1). simpl.
  by apply IH.
Qed.

Lemma run_returns tr s : ∃ s', run tr s = Returned s'.
Proof.
  revert s. induction tr as [|c tr IH]; intros s; simpl; [by eauto|].
  destruct (exec_returns c s) as (v & s1 & ->). simpl. apply IH.
Qed.

(** *** Admission through the store alone: the log grows at its end *)

Lemma key_stamp e n now : key (stamp e n now) = n.
Proof. unfold key, stamp. by rewrite or_zero_default. Qed.

Lemma addEvent_tail r e now s :
  below_counter r s →
  let n := SequenceManagerService.getCurrentSequence r (sequenceManager s)
           + 1 in
  addEvent r e now s
  = Returned
      (stamp e n now,
       mk (<[r := getEvents r s ++ [stamp e n now]]> (events s))
          (snd (SequenceManagerService.getNextSequence r
                  (sequenceManager s)))).
Proof.
  intros Hb n.
  pose proof (addEvent_eq r e now s) as Heq. simpl in Heq.
  unfold SequenceManagerService.getCurrentSequence in n. fold n in Heq.
  rewrite Heq, insertEvent_tail; [done|].
  eapply Forall_impl; [exact Hb|]. intros e' He'. simpl in He'.
  rewrite key_stamp.
  unfold SequenceManagerService.getCurrentSequence in He'. lia.
Qed.

(** A call that is not an [addEvent] for the room, and does not clear or
    reset it, leaves its log and its counter as they are. *)
Lemma exec_elsewhere r c s :
  adds_or_elsewhere r c = true →
  (∀ e now, c ≠ AddEvent r e now) →
  ∃ v s', exec c s = Returned (v, s')
          ∧ getEvents r s' = getEvents r s
          ∧ SequenceManagerService.getCurrentSequence r (sequenceManager s')
            = SequenceManagerService.getCurrentSequence r
                (sequenceManager s).
Proof.
  intros Hc Hne. destruct c as [r' e now|r'|r' k|r'|c]; simpl in *.
  - assert (r' ≠ r) as Hr by (intros ->; by eapply Hne).
    destruct (addEvent_returns r' e now s) as (p & _ & ->). simpl.
    eexists _, _. split; [done|]. split.
    + rewrite getEvents_insert. by rewrite decide_False.
    + by apply getCurrentSequence_next_ne.
  - by eauto.
  - by eauto.
  - apply negb_true_iff, bool_decide_eq_false in Hc.
    eexists _, _. split; [done|]. split.
    + rewrite getEvents_clear. by rewrite decide_False.
    + by apply getCurrentSequence_reset_ne.
  - destruct c as [r'|r'|r']; simpl in *.
    + apply negb_true_iff, bool_decide_eq_false in Hc.
      eexists _, _. split; [done|]. split; [done|].
      by apply (getCurrentSequence_next_ne r r').
    + by eauto.
    + apply negb_true_iff, bool_decide_eq_false in Hc.
      eexists _, _. split; [done|]. split; [done|].
      by apply (getCurrentSequence_reset_ne r r').
Qed.

Lemma is_add_dec r c :
  (∃ e now, c = AddEvent r e now) ∨ (∀ e now, c ≠ AddEvent r e now).
Proof.
  destruct c as [r' e now| | | |]; try by right.
  destruct (decide (r' = r)) as [->|Hne]; [left; by eauto|].
  right. intros e' now' [=]. done.
Qed.

Lemma stamp_from_sequences n evs :
  Event.sequence <$> stamp_from n evs
  = (fun i => Some (n + Z.of_nat i)) <$> seq 0 (length evs).
Proof.
  revert n. induction evs as [|[e now] evs IH]; intros n; [done|].
  simpl. rewrite IH. f_equal; [f_equal; lia|].
  change (list_fmap nat (option Z)) with (@fmap list _ nat (option Z)).
  rewrite <- (fmap_S_seq 0), <- list_fmap_compose.
  apply list_fmap_ext. intros _ i _. simpl. f_equal. lia.
Qed.

(** From a log below its counter [c], a run of calls that only adds to the
    room appends the added events, stamped [c+1, c+2, ...]. *)
Lemma run_adds r tr : ∀ s,
  forallb (adds_or_elsewhere r) tr = true →
  below_counter r s →
  ∃ s', run tr s = Returned s'
        ∧ getEvents r s'
          = getEvents r s
            ++ stamp_from
                 (SequenceManagerService.getCurrentSequence r
                    (sequenceManager s) + 1)
                 (added r tr)
        ∧ SequenceManagerService.getCurrentSequence r (sequenceManager s')
          = SequenceManagerService.getCurrentSequence r (sequenceManager s)
            + Z.of_nat (length (added r tr)).
Proof.
  induction tr as [|c tr IH]; intros s Htr Hb.
  - exists s. simpl. rewrite app_nil_r, Z.add_0_r. done.
  - simpl in Htr. apply andb_true_iff in Htr as [Hc Htr].
    destruct (is_add_dec r c) as [(e & now & ->)|Hother].
    + simpl. rewrite (addEvent_tail r e now s Hb). simpl.
      rewrite decide_True by done.
      set (n := SequenceManagerService.getCurrentSequence r
                  (sequenceManager s) + 1).
      set (s1 := mk _ _).
      assert (SequenceManagerService.getCurrentSequence r
                (sequenceManager s1) = n) as Hn
        by apply getCurrentSequence_next.
      assert (getEvents r s1 = getEvents r s ++ [stamp e n now]) as Hlog.
      { unfold s1. rewrite getEvents_insert. by rewrite decide_True. }
      destruct (IH s1 Htr) as (s' & Hrun & Hlog' & Hcnt').
      { unfold below_counter. rewrite Hn, Hlog.
        apply Forall_app. split.
        - eapply Forall_impl; [exact Hb|]. intros e' He'. simpl in *.
          unfold n. lia.
        - constructor; [|constructor]. rewrite key_stamp. lia. }
      exists s'. split; [done|]. rewrite Hlog', Hcnt', Hlog, Hn.
      simpl. rewrite <- app_assoc. split; [done|]. unfold n. lia.
    + assert (added r (c :: tr) = added r tr) as ->.
      { destruct c as [r' e now| | | |]; try done.
        simpl. rewrite decide_False; [done|].
        intros ->. by eapply Hother. }
      destruct (exec_elsewhere r c s Hc Hother)
        as (v & s1 & Hex & Hlog & Hcnt).
      simpl. rewrite Hex. simpl.
      destruct (IH s1 Htr) as (s' & Hrun & Hlog' & Hcnt').
      { unfold below_counter. by rewrite Hlog, Hcnt. }
      exists s'. split; [done|]. by rewrite Hlog', Hcnt', Hlog, Hcnt.
Qed.

(** *** Without a direct reset of the manager, logs have no duplicates *)

Lemma strictly_ascending_snoc l e :
  strictly_ascending l →
  Forall (fun e' => key e' < key e) l →
  strictly_ascending (l ++ [e]).
Proof.
  unfold strictly_ascending. intros Hs Hall.
  rewrite fmap_app. apply StronglySorted_app. split; [|split; [done|]].
  - intros x1 x2 (e1 & -> & He1)%list_elem_of_fmap Hx2.
    simpl in Hx2. apply list_elem_of_singleton in Hx2 as ->.
    rewrite Forall_forall in Hall. by apply Hall.
  - simpl. repeat constructor.
Qed.

Lemma in_step_init : in_step init.
Proof.
  intros r. unfold strictly_ascending, below_counter, getEvents, init.
  simpl. rewrite lookup_empty. split; constructor.
Qed.

Lemma exec_in_step c s :
  in_step s →
  no_direct_reset [c] = true →
  ∃ v s', exec c s = Returned (v, s') ∧ in_step s'.
Proof.
  intros Hs Hc. destruct c as [r e now|r|r k|r|c]; simpl; try by eauto.
  - rewrite (addEvent_tail r e now s (proj2 (Hs r))). simpl.
    eexists _, _. split; [done|]. intros r'.
    unfold below_counter. rewrite getEvents_insert.
    change (sequenceManager (mk _ ?sm)) with sm.
    change (SequenceManagerService.mk _)
      with (snd (SequenceManagerService.getNextSequence r
                   (sequenceManager s))).
    destruct (decide (r = r')) as [<-|Hne].
    + rewrite getCurrentSequence_next.
      destruct (Hs r) as [Hstrict Hbelow].
      assert (Forall
                (fun e' => key e' <
                   SequenceManagerService.getCurrentSequence r
                     (sequenceManager s) + 1) (getEvents r s)) as Hlt.
      { eapply Forall_impl; [exact Hbelow|]. intros e' He'. simpl in *.
        lia. }
      split.
      * apply strictly_ascending_snoc; [done|]. by rewrite key_stamp.
      * apply Forall_app. split.
        -- eapply Forall_impl; [exact Hlt|]. intros e' He'. simpl in *.
           lia.
        -- constructor; [|constructor]. rewrite key_stamp. lia.
    + rewrite getCurrentSequence_next_ne by done. apply Hs.
  - eexists _, _. split; [done|]. intros r'.
    unfold below_counter. rewrite getEvents_clear.
    destruct (decide (r = r')) as [<-|Hne].
    + split; constructor.
    + simpl. rewrite getCurrentSequence_reset_ne by done. apply Hs.
  - destruct c as [r|r|r]; simpl in *; [| |done].
    + eexists _, _. split; [done|]. intros r'.
      destruct (Hs r') as [Hstrict Hbelow]. split; [done|].
      unfold below_counter in *. simpl.
      change (SequenceManagerService.mk _)
        with (snd (SequenceManagerService.getNextSequence r
                     (sequenceManager s))).
      destruct (decide (r = r')) as [<-|Hne].
      * rewrite getCurrentSequence_next.
        eapply Forall_impl; [exact Hbelow|]. intros e' He'. simpl in *.
        lia.
      * by rewrite getCurrentSequence_next_ne.
    + eexists _, _. split; [done|]. by destruct s.
Qed.

Lemma run_in_step tr : ∀ s,
  in_step s →
  no_direct_reset tr = true →
  ∃ s', run tr s = Returned s' ∧ in_step s'.
Proof.
  induction tr as [|c tr IH]; intros s Hs Htr; simpl; [by eauto|].
  simpl in Htr. apply andb_true_iff in Htr as [Hc Htr].
  destruct (exec_in_step c s Hs) as (v & s1 & -> & Hs1).
  { simpl. by rewrite Hc. }
  simpl. by apply IH.
Qed.

(** In a reachable state the keys of a log are its sequence fields. *)
Lemma stamped_sequences l :
  stamped l → Event.sequence <$> l = Some <$> (key <$> l).
Proof.
  induction 1 as [|e l (v & Hv & _) _ IH]; [done|].
  rewrite !fmap_cons, IH. f_equal. unfold key.
  by rewrite Hv, or_zero_default.
Qed.

(** C2.  Sorted invariant.  Whatever calls are made on a fresh store and
    its sequence manager, in whatever order, none throws and afterwards
    every event of [getEvents(roomId)] carries a sequence number and these
    numbers are in ascending order.  [insertEvent] by itself keeps any
    sorted array sorted (by [sequence || 0]) whatever sequence value the
    event it is given carries, adding that event and nothing else.  When
    the sequence manager is not reset behind the back of the store, the
    order is strict. *)
Theorem getEvents_ascending :
  (∀ tr, ∃ s, run tr init = Returned s ∧
     ∀ r, ∃ vs, Event.sequence <$> getEvents r s = Some <$> vs
                ∧ StronglySorted Z.le vs)
  ∧ (∀ l e, ascending l →
       ∃ l', insertEvent l e = Returned l' ∧ l' ≡ₚ e :: l
             ∧ ascending l')
  ∧ (∀ tr, no_direct_reset tr = true →
       ∃ s, run tr init = Returned s ∧
         ∀ r, strictly_ascending (getEvents r s)).
Proof.
  split; [|split].
  - intros tr.
    destruct (run_consistent tr init consistent_init)
      as (s & Hrun & [_ Hasc Hst]).
    exists s. split; [done|]. intros r. exists (key <$> getEvents r s).
    split; [by apply stamped_sequences|apply Hasc].
  - apply insertEvent_ascending.
  - intros tr Htr.
    destruct (run_in_step tr init in_step_init Htr) as (s & Hrun & Hs).
    exists s. split; [done|]. intros r. apply Hs.
Qed.

Lemma getEvents_ascending_witness :
  let l := [Sample.draw_line "a" (Some 1); Sample.erase "b" (Some 3)] in
  let tr := [AddEvent "room-1" (Sample.draw_line "a" None) 1000;
             Manager (SequenceManagerService.GetNextSequence "room-1");
             AddEvent "room-1" (Sample.erase "b" (Some 1)) 1001] in
  (ascending l
   ∧ ∃ l', insertEvent l (Sample.draw_line "c" (Some 2)) = Returned l'
           ∧ l' ≡ₚ Sample.draw_line "c" (Some 2) :: l ∧ ascending l')
  ∧ (no_direct_reset tr = true
     ∧ ∃ s, run tr init = Returned s
            ∧ ∀ r, strictly_ascending (getEvents r s)).
Proof.
  assert (ascending
            [Sample.draw_line "a" (Some 1); Sample.erase "b" (Some 3)])
    as Hl.
  { unfold ascending. simpl. repeat constructor. unfold key. simpl. lia. }
  split.
  - split; [exact Hl|].
    exact (proj1 (proj2 getEvents_ascending) _ _ Hl).
  - split; [reflexivity|].
    exact (proj2 (proj2 getEvents_ascending)
             [AddEvent "room-1" (Sample.draw_line "a" None) 1000;
              Manager (SequenceManagerService.GetNextSequence "room-1");
              AddEvent "room-1" (Sample.erase "b" (Some 1)) 1001] eq_refl).
Defined.

(** *** Catch-up *)

Lemma getEventsAfter_filter r k s :
  getEventsAfter r k s = List.filter (is_after k) (getEvents r s).
Proof. done. Qed.

Lemma is_after_stamped k l :
  stamped l →
  List.filter (is_after (Int k)) l = List.filter (sequence_gt k) l.
Proof.
  induction 1 as [|e l (v & Hv & Hpos) _ IH]; [done|].
  simpl. rewrite IH. unfold is_after, sequence_gt. rewrite Hv. simpl.
  by rewrite truthy_pos by lia.
Qed.

Lemma is_after_zero_stamped l :
  stamped l → List.filter (is_after (Int 0)) l = l.
Proof.
  induction 1 as [|e l (v & Hv & Hpos) _ IH]; [done|].
  simpl. rewrite IH. unfold is_after. rewrite Hv. simpl.
  rewrite truthy_pos by lia. by destruct (Z.ltb_spec 0 v); [|lia].
Qed.

Lemma filter_ascending f l : ascending l → ascending (List.filter f l).
Proof.
  induction l as [|e l IH]; [done|]. intros [Hall Hl]%ascending_cons.
  simpl. destruct (f e); [|by apply IH].
  apply ascending_cons. split; [|by apply IH].
  rewrite Forall_forall in *. intros e' He'. apply Hall.
  apply list_elem_of_In in He'. apply filter_In in He' as [He' _].
  by apply list_elem_of_In.
Qed.

Lemma filter_stamped f l : stamped l → stamped (List.filter f l).
Proof.
  unfold stamped. rewrite !Forall_forall. intros Hall e He. apply Hall.
  apply list_elem_of_In in He. apply filter_In in He as [He _].
  by apply list_elem_of_In.
Qed.

(** C3.  Incremental catch-up.  In every state the calls can reach, for
    every room and every integer [k], [getEventsAfter(roomId, k)] is
    [getEvents(roomId)] restricted to the events with [sequence > k], in
    the order of [getEvents], which is ascending; and
    [getEventsAfter(roomId, 0)] is [getEvents(roomId)]. *)
Theorem getEventsAfter_is_suffix tr :
  ∃ s, run tr init = Returned s ∧
    ∀ r k,
      getEventsAfter r (Int k) s
      = List.filter (sequence_gt k) (getEvents r s)
      ∧ ascending (getEventsAfter r (Int k) s)
      ∧ getEventsAfter r (Int 0) s = getEvents r s.
Proof.
  destruct (run_consistent tr init consistent_init)
    as (s & Hrun & [_ Hasc Hst]).
  exists s. split; [done|]. intros r k.
  rewrite !getEventsAfter_filter. split; [|split].
  - by apply is_after_stamped.
  - by apply filter_ascending.
  - by apply is_after_zero_stamped.
Qed.

(** *** No reuse, no skips *)

Lemma below_counter_fresh r s :
  getEvents r s = [] → below_counter r s.
Proof. unfold below_counter. intros ->. constructor. Qed.

(** C4.  No reuse, no skips, and the caller cannot set the sequence.
    From a fresh store, or from any state in which the room has just been
    cleared, after a run of calls whose only calls for the room are [n]
    calls of [addEvent] (any calls for other rooms in between, no call
    throws), [getEvents(roomId)] is the list of the [n] events given, in
    call order, each with its own fields but stamped with the time of its
    admission and with the sequence numbers [1, 2, ..., n] -- whatever
    sequence values the events given carried. *)
Theorem addEvent_numbers_from_one r tr :
  forallb (adds_or_elsewhere r) tr = true →
  (∃ s', run tr init = Returned s'
         ∧ getEvents r s' = stamp_from 1 (added r tr)
         ∧ Event.sequence <$> getEvents r s'
           = (fun i => Some (Z.of_nat i)) <$> seq 1 (length (added r tr)))
  ∧ (∀ s, ∃ s', run tr (clearRoomEvents r s) = Returned s'
         ∧ getEvents r s' = stamp_from 1 (added r tr)
         ∧ Event.sequence <$> getEvents r s'
           = (fun i => Some (Z.of_nat i)) <$> seq 1 (length (added r tr))).
Proof.
  intros Htr.
  assert (∀ s, getEvents r s = [] →
            SequenceManagerService.getCurrentSequence r (sequenceManager s)
            = 0 →
            ∃ s', run tr s = Returned s'
              ∧ getEvents r s' = stamp_from 1 (added r tr)
              ∧ Event.sequence <$> getEvents r s'
                = (fun i => Some (Z.of_nat i))
                    <$> seq 1 (length (added r tr))) as Hfresh.
  { intros s Hlog Hcnt.
    destruct (run_adds r tr s Htr (below_counter_fresh r s Hlog))
      as (s' & Hrun & Hlog' & _).
    rewrite Hlog, Hcnt in Hlog'. simpl in Hlog'.
    exists s'. split; [done|]. split; [done|].
    rewrite Hlog', stamp_from_sequences.
    rewrite <- (fmap_S_seq 0), <- list_fmap_compose.
    apply list_fmap_ext. intros _ i _. simpl. f_equal. lia. }
  split; [|intros s]; apply Hfresh.
  - unfold getEvents, init. simpl. by rewrite lookup_empty.
  - apply getCurrentSequence_init.
  - rewrite getEvents_clear. by rewrite decide_True.
  - apply getCurrentSequence_reset.
Qed.

Lemma addEvent_numbers_from_one_witness :
  let tr := [AddEvent "room-1" (Sample.draw_line "a" (Some 7)) 1000;
             AddEvent "room-2" (Sample.draw_line "c" None) 1001;
             GetEvents "room-1";
             AddEvent "room-1" (Sample.erase "b" None) 1002] in
  forallb (adds_or_elsewhere "room-1") tr = true
  ∧ ∃ s', run tr init = Returned s'
          ∧ Event.sequence <$> getEvents "room-1" s' = [Some 1; Some 2].
Proof.
  split; [reflexivity|].
  destruct (proj1 (addEvent_numbers_from_one "room-1"
    [AddEvent "room-1" (Sample.draw_line "a" (Some 7)) 1000;
     AddEvent "room-2" (Sample.draw_line "c" None) 1001;
     GetEvents "room-1";
     AddEvent "room-1" (Sample.erase "b" None) 1002] eq_refl))
    as (s' & Hrun & _ & Hseq).
  exists s'. split; [exact Hrun|exact Hseq].
Defined.

(** *** The stamping frame *)

(** C5.  Stamping frame.  In every state [addEvent(roomId, event)]
    returns; the event it returns has the type, user, room and payload of
    the event given; its sequence number is the value [getNextSequence]
    gives for the room in that state, and the sequence manager is left as
    that call leaves it; its timestamp is the time of the call; and it is
    the event stored in the log of the room. *)
Theorem addEvent_frame r e now s :
  ∃ e' s', addEvent r e now s = Returned (e', s')
    ∧ Event.type e' = Event.type e
    ∧ Event.userId e' = Event.userId e
    ∧ Event.roomId e' = Event.roomId e
    ∧ Event.body e' = Event.body e
    ∧ Event.sequence e'
      = Some (fst (SequenceManagerService.getNextSequence r
                     (sequenceManager s)))
    ∧ sequenceManager s'
      = snd (SequenceManagerService.getNextSequence r (sequenceManager s))
    ∧ Event.timestamp e' = now
    ∧ e' ∈ getEvents r s'
    ∧ getEvents r s' ≡ₚ e' :: getEvents r s.
Proof.
  destruct (addEvent_returns r e now s) as (p & _ & Hadd). simpl in Hadd.
  eexists _, _. split; [exact Hadd|].
  repeat (split; [done|]).
  rewrite getEvents_insert, decide_True by done.
  split; [|apply splice_in_perm].
  rewrite splice_in_perm. apply elem_of_cons. by left.
Qed.

(** *** Clearing a room *)

(** C6.  Clear resets to the fresh state.  After
    [clearRoomEvents(roomId)], in whatever state it is called,
    [getEvents(roomId)] and [getEventsAfter(roomId, k)] are empty,
    [getCurrentSequence(roomId)] is 0, the next [addEvent] for the room is
    stamped with sequence 1 and is then the whole log, and the store and
    the manager hold for the room what a new store and manager hold:
    nothing. *)
Theorem clearRoomEvents_fresh r s :
  let s0 := clearRoomEvents r s in
  getEvents r s0 = []
  ∧ (∀ k, getEventsAfter r k s0 = [])
  ∧ SequenceManagerService.getCurrentSequence r (sequenceManager s0) = 0
  ∧ (∀ e now, ∃ s', addEvent r e now s0 = Returned (stamp e 1 now, s')
                    ∧ getEvents r s' = [stamp e 1 now])
  ∧ events s0 !! r = events init !! r
  ∧ SequenceManagerService.sequences (sequenceManager s0) !! r
    = SequenceManagerService.sequences (sequenceManager init) !! r.
Proof.
  intros s0.
  assert (getEvents r s0 = []) as Hlog.
  { unfold s0. rewrite getEvents_clear. by rewrite decide_True. }
  assert (SequenceManagerService.getCurrentSequence r (sequenceManager s0)
          = 0) as Hcnt by apply getCurrentSequence_reset.
  split; [done|]. split; [|split; [done|split; [|split]]].
  - intros k. by rewrite getEventsAfter_filter, Hlog.
  - intros e now.
    pose proof (addEvent_tail r e now s0 (below_counter_fresh r s0 Hlog))
      as Hadd.
    cbv zeta in Hadd. rewrite Hcnt, Hlog in Hadd.
    eexists. split; [exact Hadd|].
    rewrite getEvents_insert. by rewrite decide_True.
  - simpl. by rewrite lookup_delete_eq, lookup_empty.
  - simpl. by rewrite lookup_delete_eq, lookup_empty.
Qed.

(** *** Nothing found, nothing thrown *)

Lemma run_no_add r tr : ∀ s,
  added r tr = [] →
  getEvents r s = [] →
  ∃ s', run tr s = Returned s' ∧ getEvents r s' = [].
Proof.
  induction tr as [|c tr IH]; intros s Hadd Hlog; simpl; [by eauto|].
  destruct c as [r' e now|r'|r' k|r'|c]; simpl in *.
  - destruct (decide (r' = r)) as [->|Hne]; [done|].
    destruct (addEvent_returns r' e now s) as (p & _ & ->). simpl.
    apply IH; [done|]. rewrite getEvents_insert. by rewrite decide_False.
  - by apply IH.
  - by apply IH.
  - apply IH; [done|]. rewrite getEvents_clear. by destruct (decide _).
  - destruct (SequenceManagerService.exec c (sequenceManager s)).
    simpl. by apply IH.
Qed.

(** C7.  Not found is empty, never an error.  For a room for which no
    [addEvent] has been called, whatever else has been called,
    [getEvents(roomId)] and [getEventsAfter(roomId, k)], for every [k]
    ([NaN] included), are empty; and no call on the store or on the
    sequence manager throws, in any state. *)
Theorem unknown_room_is_empty :
  (∀ tr r, added r tr = [] →
     ∃ s, run tr init = Returned s
          ∧ getEvents r s = []
          ∧ ∀ k, getEventsAfter r k s = [])
  ∧ (∀ c s, ∃ v s', exec c s = Returned (v, s')).
Proof.
  split; [|apply exec_returns].
  intros tr r Hadd.
  destruct (run_no_add r tr init Hadd) as (s & Hrun & Hlog).
  { unfold getEvents, init. simpl. by rewrite lookup_empty. }
  exists s. split; [done|]. split; [done|].
  intros k. by rewrite getEventsAfter_filter, Hlog.
Qed.

Lemma unknown_room_is_empty_witness :
  let tr := [AddEvent "room-1" (Sample.draw_line "a" None) 1000;
             Manager (SequenceManagerService.GetNextSequence "room-2");
             ClearRoomEvents "room-2"] in
  added "room-2" tr = []
  ∧ ∃ s, run tr init = Returned s
         ∧ getEvents "room-2" s = []
         ∧ ∀ k, getEventsAfter "room-2" k s = [].
Proof.
  split; [reflexivity|].
  exact (proj1 unknown_room_is_empty
           [AddEvent "room-1" (Sample.draw_line "a" None) 1000;
            Manager (SequenceManagerService.GetNextSequence "room-2");
            ClearRoomEvents "room-2"] "room-2" eq_refl).
Defined.

End EventLog.

(** ** The HTTP read path *)

Section ReadPath.
Import EventStoreService EventStoreRouter.

Implicit Types (s : EventStoreService.state) (after : option string).

Lemma parseInt_truthy a k : parseInt a = Int k → truthy_param (Some a) = true.
Proof. destruct a; [done|]. intros _. done. Qed.

(** An [after] that is present but empty is taken as absent. *)
Lemma get_room_after_empty room s :
  get_room room (Some "") s = get_room room None s.
Proof. done. Qed.

(** An [after] that is not a number selects nothing. *)
Lemma get_room_after_NaN room a s :
  parseInt a = NaN →
  a ≠ "" →
  get_room room (Some a) s = Json (mkBody room [] 0 0).
Proof.
  intros Hnan Hne. unfold get_room, truthy_param.
  rewrite bool_decide_eq_false_2 by done. simpl. rewrite Hnan.
  rewrite getEventsAfter_filter.
  assert (List.filter (is_after NaN) (getEvents room s) = []) as ->; [|done].
  induction (getEvents room s) as [|e l IH]; [done|]. simpl. rewrite IH.
  unfold is_after. destruct (Event.sequence e); [|done].
  simpl. by rewrite andb_false_r.
Qed.

(** The last sequence of a stamped array. *)
Lemma last_sequence_stamped l :
  stamped l →
  match last l with
  | Some e => Event.sequence e = Some (last_sequence l)
  | None => last_sequence l = 0
  end.
Proof.
  intros Hst. unfold last_sequence.
  destruct (last l) as [e|] eqn:Hlast; [|done].
  apply last_Some_elem_of in Hlast.
  unfold stamped in Hst. rewrite Forall_forall in Hst.
  destruct (Hst _ Hlast) as (v & Hv & Hpos).
  simpl. rewrite Hv. simpl. by rewrite truthy_pos by lia.
Qed.

(** C8.  The shape of the HTTP read path.  In every state the calls can
    reach, [GET /:roomId] replies with a JSON body, never with status 500:
    [roomId] is the room asked for; [events] is [getEvents(roomId)] when
    no [after] is given and, when [after] is given as an integer [k],
    [getEventsAfter(roomId, k)], that is the events with [sequence > k];
    [count] is the length of [events]; [lastSequence] is the sequence of
    the last of [events], and 0 when [events] is empty. *)
Theorem get_room_shape tr :
  ∃ s, run tr init = Returned s ∧
    ∀ room after, ∃ b,
      get_room room after s = Json b
      ∧ roomId b = room
      ∧ (after = None → events b = getEvents room s)
      ∧ (∀ a k, after = Some a → parseInt a = Int k →
           events b = getEventsAfter room (Int k) s
           ∧ events b = List.filter (sequence_gt k) (getEvents room s))
      ∧ count b = length (events b)
      ∧ match last (events b) with
        | Some e => Event.sequence e = Some (lastSequence b)
        | None => lastSequence b = 0
        end.
Proof.
  destruct (run_consistent tr init consistent_init)
    as (s & Hrun & [_ _ Hst]).
  exists s. split; [done|]. intros room after.
  unfold get_room. destruct (truthy_param after) eqn:Htruthy; simpl.
  - eexists. split; [done|]. simpl. split; [done|].
    split; [by intros ->|]. split; [|split; [done|]].
    + intros a k -> Hk. simpl. rewrite Hk. split; [done|].
      rewrite getEventsAfter_filter. by apply is_after_stamped.
    + apply last_sequence_stamped. rewrite getEventsAfter_filter.
      by apply filter_stamped.
  - eexists. split; [done|]. simpl. split; [done|].
    split; [done|]. split; [|split; [done|]].
    + intros a k -> Hk. by rewrite (parseInt_truthy a k Hk) in Htruthy.
    + by apply last_sequence_stamped.
Qed.

Lemma get_room_shape_witness :
  let tr := [AddEvent "room-1" (Sample.draw_line "a" None) 1000;
             AddEvent "room-1" (Sample.erase "b" None) 1001] in
  parseInt "1" = Int 1
  ∧ ∃ s b b', run tr init = Returned s
              ∧ get_room "room-1" (Some "1") s = Json b
              ∧ events b
                = List.filter (sequence_gt 1) (getEvents "room-1" s)
              ∧ get_room "room-1" None s = Json b'
              ∧ events b' = getEvents "room-1" s.
Proof.
  split; [reflexivity|].
  destruct (get_room_shape
              [AddEvent "room-1" (Sample.draw_line "a" None) 1000;
               AddEvent "room-1" (Sample.erase "b" None) 1001])
    as (s & Hrun & Hshape).
  destruct (Hshape "room-1" (Some "1")) as (b & Hb & _ & _ & Hafter & _).
  destruct (Hshape "room-1" None) as (b' & Hb' & _ & Hall & _).
  exists s, b, b'. split; [exact Hrun|]. split; [exact Hb|].
  split; [exact (proj2 (Hafter "1" 1 eq_refl eq_refl))|].
  split; [exact Hb'|exact (Hall eq_refl)].
Defined.

End ReadPath.

(** ** The presence store *)

Section Presence.
Import PresenceStore.

Implicit Types (s : state) (tr : list call) (u v : string).

(** The palette index of [getUserColor] is always inside the palette. *)
Lemma getUserColor_in_palette u : getUserColor u ∈ USER_COLORS.
Proof.
  unfold getUserColor.
  set (hash := fold_left hash_step _ 0).
  assert (0 ≤ Z.abs hash mod Z.of_nat (length USER_COLORS)
          < Z.of_nat (length USER_COLORS)) as Hidx
    by (apply Z.mod_pos_bound; simpl; lia).
  set (index := Z.abs hash mod _) in *.
  apply list_elem_of_In, nth_In. simpl in *. lia.
Qed.

Lemma cursors_of_active_init : cursors_of_active init.
Proof. unfold cursors_of_active, init. simpl. set_solver. Qed.

Lemma addUser_cursors u n c now s :
  userCursors (addUser u n c now s) = userCursors s.
Proof. unfold addUser. by destruct (activeUsers s !! u). Qed.

Lemma addUser_existing u n c now s :
  is_Some (activeUsers s !! u) → addUser u n c now s = s.
Proof. intros [p Hp]. unfold addUser. by rewrite Hp. Qed.

Lemma updateCursor_inactive u x y now s :
  activeUsers s !! u = None → updateCursor u x y now s = s.
Proof. intros Hu. unfold updateCursor. by rewrite Hu. Qed.

Lemma removeUser_gone u s :
  activeUsers (removeUser u s) !! u = None
  ∧ userCursors (removeUser u s) !! u = None.
Proof. unfold removeUser. simpl. by rewrite !lookup_delete_eq. Qed.

Lemma removeUser_others u v s :
  v ≠ u →
  getUser v (removeUser u s) = getUser v s
  ∧ getCursor v (removeUser u s) = getCursor v s.
Proof.
  intros Hne. unfold getUser, getCursor, removeUser. simpl.
  by rewrite !lookup_delete_ne.
Qed.

Lemma exec_cursors_of_active c s :
  cursors_of_active s → cursors_of_active (exec c s).
Proof.
  unfold cursors_of_active. intros Hs.
  destruct c as [u n col now|u|u x y now|]; simpl.
  - unfold addUser. destruct (activeUsers s !! u); [done|].
    simpl. rewrite dom_insert_L. set_solver.
  - unfold removeUser. simpl. rewrite !dom_delete_L.
    intros v [Hv Hne]%elem_of_difference.
    apply elem_of_difference. split; [by apply Hs|done].
  - unfold updateCursor. destruct (activeUsers s !! u) as [p|] eqn:Hu;
      [|done].
    simpl. rewrite dom_insert_L.
    intros v [->%elem_of_singleton|Hv]%elem_of_union; [|by apply Hs].
    apply elem_of_dom. by eauto.
  - done.
Qed.

Lemma run_cursors_of_active tr : ∀ s,
  cursors_of_active s → cursors_of_active (run tr s).
Proof.
  induction tr as [|c tr IH]; intros s Hs; [done|].
  simpl. apply IH. by apply exec_cursors_of_active.
Qed.

(** C9.  Idempotent leave.  In every state the store can be in,
    [removeUser(userId)] for a user who is not active changes neither the
    active users nor the cursors; and in any state, for any user, it
    leaves the entries of every other user as they are.  ([removeUser] has
    no failing case.) *)
Theorem removeUser_absent_is_noop :
  (∀ tr u,
     activeUsers (run tr init) !! u = None →
     removeUser u (run tr init) = run tr init)
  ∧ (∀ s u v, v ≠ u →
       getUser v (removeUser u s) = getUser v s
       ∧ getCursor v (removeUser u s) = getCursor v s).
Proof.
  split; [|intros s u v; apply removeUser_others].
  intros tr u Hu.
  pose proof (run_cursors_of_active tr init cursors_of_active_init) as Hinv.
  unfold cursors_of_active in Hinv.
  assert (userCursors (run tr init) !! u = None) as Hcur.
  { apply not_elem_of_dom. apply not_elem_of_dom in Hu. set_solver. }
  unfold removeUser. rewrite !delete_id by done.
  by destruct (run tr init).
Qed.

Lemma removeUser_absent_is_noop_witness :
  let tr := [AddUser "user-1" "Alice" None 1000;
             UpdateCursor "user-1" 10 20 1001] in
  (activeUsers (run tr init) !! "user-2" = None
   ∧ removeUser "user-2" (run tr init) = run tr init)
  ∧ ("user-1" ≠ "user-2"
     ∧ getUser "user-1" (removeUser "user-2" (run tr init))
       = getUser "user-1" (run tr init)
     ∧ getCursor "user-1" (removeUser "user-2" (run tr init))
       = getCursor "user-1" (run tr init)).
Proof.
  assert (activeUsers
            (run [AddUser "user-1" "Alice" None 1000;
                  UpdateCursor "user-1" 10 20 1001] init) !! "user-2"
          = None) as Hu by (vm_compute; reflexivity).
  assert ("user-1" ≠ "user-2") as Hne by discriminate.
  split.
  - split; [exact Hu|].
    exact (proj1 removeUser_absent_is_noop _ _ Hu).
  - split; [exact Hne|].
    exact (proj2 removeUser_absent_is_noop _ _ _ Hne).
Defined.

(** C10.  Cursor containment.  [updateCursor] does nothing for a user who
    is not active; [addUser] never touches the cursors and does nothing
    for a user who is already active (name, color and join time stay);
    [removeUser] deletes the user's entry and the user's cursor;
    [clearAll] empties both maps; and so, after every call and in every
    state the store reaches, every user with a cursor is an active user. *)
Theorem cursors_belong_to_active_users :
  (∀ s u x y now,
     activeUsers s !! u = None → updateCursor u x y now s = s)
  ∧ (∀ s u n c now, userCursors (addUser u n c now s) = userCursors s)
  ∧ (∀ s u n c now,
       is_Some (activeUsers s !! u) → addUser u n c now s = s)
  ∧ (∀ s u,
       activeUsers (removeUser u s) !! u = None
       ∧ userCursors (removeUser u s) !! u = None)
  ∧ (∀ s, activeUsers (clearAll s) = ∅ ∧ userCursors (clearAll s) = ∅)
  ∧ (∀ c s, cursors_of_active s → cursors_of_active (exec c s))
  ∧ (∀ tr, cursors_of_active (run tr init)).
Proof.
  split; [intros; by apply updateCursor_inactive|].
  split; [intros; by apply addUser_cursors|].
  split; [intros; by apply addUser_existing|].
  split; [intros; by apply removeUser_gone|].
  split; [done|].
  split; [apply exec_cursors_of_active|].
  intros tr. apply run_cursors_of_active, cursors_of_active_init.
Qed.

Lemma cursors_belong_to_active_users_witness :
  let s := run [AddUser "user-1" "Alice" None 1000] init in
  activeUsers s !! "user-2" = None
  ∧ updateCursor "user-2" 5 5 1001 s = s
  ∧ is_Some (activeUsers s !! "user-1")
  ∧ addUser "user-1" "Alicia" (Some "#000000") 1002 s = s
  ∧ cursors_of_active init
  ∧ cursors_of_active (exec (UpdateCursor "user-1" 5 5 1001) init).
Proof.
  assert (activeUsers (run [AddUser "user-1" "Alice" None 1000] init)
            !! "user-2" = None) as Hu by (vm_compute; reflexivity).
  assert (is_Some (activeUsers (run [AddUser "user-1" "Alice" None 1000]
                                    init) !! "user-1")) as Ha
    by (eexists; vm_compute; reflexivity).
  assert (cursors_of_active init) as Hinit by (intros u Hu'; exact Hu').
  split; [exact Hu|].
  split; [exact (proj1 cursors_belong_to_active_users _ _ 5 5 1001 Hu)|].
  split; [exact Ha|].
  split; [exact (proj1 (proj2 (proj2 cursors_belong_to_active_users))
                   _ _ "Alicia" (Some "#000000") 1002 Ha)|].
  split; [exact Hinit|].
  exact (proj1 (proj2 (proj2 (proj2 (proj2 (proj2
           cursors_belong_to_active_users)))))
           (UpdateCursor "user-1" 5 5 1001) init Hinit).
Defined.

End Presence.

(** * Further properties *)

(** ** The sequencer: counters and rooms *)

Section SequencerCounters.
Import SequenceManagerService.

Implicit Types (r : string) (s : state) (tr : list call).

Lemma run_cons c tr s : run (c :: tr) s = run tr (snd (exec c s)).
Proof. done. Qed.

Lemma exec_other_room c r s :
  call_room c ≠ r →
  getCurrentSequence r (snd (exec c s)) = getCurrentSequence r s.
Proof.
  intros Hne. destruct c as [r'|r'|r']; simpl in *.
  - by apply (getCurrentSequence_next_ne r r').
  - done.
  - by apply getCurrentSequence_reset_ne.
Qed.

Lemma getCurrentSequence_run r tr : ∀ s,
  never_reset r tr = true →
  getCurrentSequence r (run tr s)
  = getCurrentSequence r s + Z.of_nat (next_calls r tr).
Proof.
  induction tr as [|c tr IH]; intros s Hnr.
  - simpl. unfold next_calls. simpl. lia.
  - simpl in Hnr. apply andb_true_iff in Hnr as [Hc Hnr].
    rewrite run_cons, (IH _ Hnr). unfold next_calls.
    destruct c as [r'|r'|r']; simpl in *.
    + destruct (decide (r' = r)) as [->|Hne].
      * rewrite bool_decide_eq_true_2 by done. simpl.
        change (mk _) with (snd (getNextSequence r s)).
        rewrite getCurrentSequence_next. lia.
      * rewrite bool_decide_eq_false_2 by done.
        change (mk _) with (snd (getNextSequence r' s)).
        by rewrite getCurrentSequence_next_ne.
    + done.
    + apply negb_true_iff, bool_decide_eq_false in Hc.
      by rewrite getCurrentSequence_reset_ne.
Qed.

(** X1.  [getCurrentSequence(roomId)] reads the counter without changing
    it: on a manager whose room has not been reset it is the number of
    [getNextSequence(roomId)] calls made so far, which is the value the last
    of them returned, and 0 when there was none. *)
Theorem getCurrentSequence_is_last_issued r tr :
  never_reset r tr = true →
  getCurrentSequence r (run tr init) = Z.of_nat (next_calls r tr)
  ∧ getCurrentSequence r (run tr init) = default 0 (last (issued r tr init)).
Proof.
  intros Hnr.
  rewrite (getCurrentSequence_run _ _ _ Hnr), getCurrentSequence_init.
  split; [lia|].
  rewrite (issued_from _ _ _ Hnr), getCurrentSequence_init.
  destruct (next_calls r tr) as [|n]; [done|].
  rewrite seq_S, fmap_app, list_fmap_singleton, last_snoc. simpl. lia.
Qed.

Lemma getCurrentSequence_is_last_issued_witness :
  let tr := [GetNextSequence "room-1"; GetNextSequence "room-2";
             GetNextSequence "room-1"; ResetSequence "room-2"] in
  never_reset "room-1" tr = true
  ∧ getCurrentSequence "room-1" (run tr init) = 2.
Proof.
  split; [reflexivity|].
  exact (proj1 (getCurrentSequence_is_last_issued "room-1"
           [GetNextSequence "room-1"; GetNextSequence "room-2";
            GetNextSequence "room-1"; ResetSequence "room-2"] eq_refl)).
Defined.

(** X2.  Rooms do not share counters: the numbers a room is given are the
    numbers it would be given if the calls for all other rooms were left
    out, and a call for another room leaves [getCurrentSequence(roomId)] as
    it is. *)
Theorem sequencer_rooms_independent r :
  (∀ tr s,
     issued r tr s
     = issued r (List.filter (fun c => bool_decide (call_room c = r)) tr) s)
  ∧ (∀ c s, call_room c ≠ r →
       getCurrentSequence r (snd (exec c s)) = getCurrentSequence r s).
Proof.
  split; [|intros c s; apply exec_other_room].
  assert (∀ tr s s',
            sequences s !! r = sequences s' !! r →
            issued r tr s
            = issued r
                (List.filter (fun c => bool_decide (call_room c = r)) tr) s')
    as Hgen; [|intros tr s; by apply Hgen].
  induction tr as [|c tr IH]; intros s s' Hs; [done|].
  destruct (decide (call_room c = r)) as [Hc|Hc].
  - simpl. rewrite bool_decide_eq_true_2 by done.
    destruct c as [r'|r'|r']; simpl in *; subst r'.
    + destruct (decide (r = r)); [|done]. rewrite Hs. f_equal.
      apply IH. simpl. by rewrite !lookup_insert_eq.
    + by apply IH.
    + apply IH. simpl. by rewrite !lookup_delete_eq.
  - simpl. rewrite bool_decide_eq_false_2 by done.
    destruct c as [r'|r'|r']; simpl in *.
    + destruct (decide (r' = r)); [done|]. apply IH. simpl.
      by rewrite lookup_insert_ne.
    + by apply IH.
    + apply IH. simpl. by rewrite lookup_delete_ne.
Qed.

Lemma sequencer_rooms_independent_witness :
  let s := run [GetNextSequence "room-1"] init in
  call_room (ResetSequence "room-2") ≠ "room-1"
  ∧ getCurrentSequence "room-1" (snd (exec (ResetSequence "room-2") s))
    = getCurrentSequence "room-1" s.
Proof.
  assert (call_room (ResetSequence "room-2") ≠ "room-1") as Hne
    by discriminate.
  split; [exact Hne|].
  exact (proj2 (sequencer_rooms_independent "room-1") _ _ Hne).
Defined.

Lemma exec_positive c s :
  map_Forall (fun _ v => 1 ≤ v) (sequences s) →
  map_Forall (fun _ v => 1 ≤ v) (sequences (snd (exec c s))).
Proof.
  intros Hpos. destruct c as [r|r|r]; simpl.
  - apply (getNextSequence_positive r _ Hpos).
  - done.
  - by apply map_Forall_delete.
Qed.

Lemma issued_positive r tr : ∀ s,
  map_Forall (fun _ v => 1 ≤ v) (sequences s) →
  Forall (fun n => 1 ≤ n) (issued r tr s)
  ∧ map_Forall (fun _ v => 1 ≤ v) (sequences (run tr s)).
Proof.
  induction tr as [|c tr IH]; intros s Hpos; [by split|].
  rewrite run_cons.
  destruct (IH _ (exec_positive c s Hpos)) as [Hall Hfin].
  split; [|done].
  destruct c as [r'|r'|r']; simpl in *; try done.
  destruct (decide (r' = r)) as [->|Hne]; [|done].
  constructor; [|done].
  pose proof (counter_nonneg r s Hpos) as Hc.
  unfold getCurrentSequence in Hc. lia.
Qed.

(** X3.  Whatever is called on a new sequence manager, resets included,
    every number [getNextSequence] returns is at least 1, and every counter
    the manager holds is at least 1: a counter that is present is never the
    falsy 0 that [|| 0] would take for an absent one. *)
Theorem issued_numbers_positive r tr :
  Forall (fun n => 1 ≤ n) (issued r tr init)
  ∧ map_Forall (fun _ v => 1 ≤ v) (sequences (run tr init))
  ∧ (getCurrentSequence r (run tr init) = 0
     ↔ sequences (run tr init) !! r = None).
Proof.
  destruct (issued_positive r tr init) as [Hall Hfin];
    [apply map_Forall_empty|].
  split; [done|]. split; [done|].
  unfold getCurrentSequence. rewrite or_zero_default.
  destruct (sequences (run tr init) !! r) as [v|] eqn:Hv; simpl; [|done].
  specialize (Hfin _ _ Hv). simpl in Hfin. split; [lia|done].
Qed.

End SequencerCounters.

(** ** The event log: where an event goes *)

Section EventLogOrder.
Import EventStoreService.

Implicit Types (r : string) (s : state) (tr : list call)
  (l : list WhiteboardEvent) (e : WhiteboardEvent).

Lemma filter_all (f : WhiteboardEvent → bool) l :
  Forall (fun e => f e = true) l → List.filter f l = l.
Proof. induction 1 as [|e l He _ IH]; [done|]. simpl. by rewrite He, IH. Qed.

Lemma filter_none (f : WhiteboardEvent → bool) l :
  Forall (fun e => f e = false) l → List.filter f l = [].
Proof. induction 1 as [|e l He _ IH]; [done|]. simpl. by rewrite He. Qed.

Lemma filter_prefix (f : WhiteboardEvent → bool) l p :
  Forall (fun e => f e = true) (take p l) →
  Forall (fun e => f e = false) (drop p l) →
  List.filter f l = take p l.
Proof.
  intros Ht Hd. rewrite <- (take_drop p l) at 1.
  by rewrite List.filter_app, (filter_all _ _ Ht), (filter_none _ _ Hd),
    app_nil_r.
Qed.

Lemma filter_suffix (f : WhiteboardEvent → bool) l p :
  Forall (fun e => f e = false) (take p l) →
  Forall (fun e => f e = true) (drop p l) →
  List.filter f l = drop p l.
Proof.
  intros Ht Hd. rewrite <- (take_drop p l) at 1.
  by rewrite List.filter_app, (filter_none _ _ Ht), (filter_all _ _ Hd).
Qed.

(** X4.  Where [insertEvent] puts an event in a sorted array: after every
    event with a smaller key and before every event with the same or a
    larger key ([sequence || 0] being the key).  An event whose key is
    already there goes in front of the events that have it. *)
Theorem insertEvent_before_equal_keys l e :
  ascending l →
  insertEvent l e
  = Returned (List.filter (fun e' => key e' <? key e) l
              ++ e :: List.filter (fun e' => key e <=? key e') l).
Proof.
  intros Hs. unfold insertEvent. fold (key e).
  destruct (search_partition l (key e) Hs) as (p & -> & _ & Hlt & Hge).
  simpl. unfold mret, outcome_ret, splice_in. f_equal.
  assert (Forall (fun e' => (key e' <? key e) = true) (take p l)) as H1.
  { eapply Forall_impl; [exact Hlt|]. intros e' He'. simpl in *. lia. }
  assert (Forall (fun e' => (key e' <? key e) = false) (drop p l)) as H2.
  { eapply Forall_impl; [exact Hge|]. intros e' He'. simpl in *. lia. }
  assert (Forall (fun e' => (key e <=? key e') = false) (take p l)) as H3.
  { eapply Forall_impl; [exact Hlt|]. intros e' He'. simpl in *. lia. }
  assert (Forall (fun e' => (key e <=? key e') = true) (drop p l)) as H4.
  { eapply Forall_impl; [exact Hge|]. intros e' He'. simpl in *. lia. }
  by rewrite (filter_prefix _ _ _ H1 H2), (filter_suffix _ _ _ H3 H4).
Qed.

Lemma insertEvent_before_equal_keys_witness :
  let l := [Sample.draw_line "a" (Some 1); Sample.erase "b" (Some 3)] in
  ascending l
  ∧ insertEvent l (Sample.draw_line "c" (Some 3))
    = Returned [Sample.draw_line "a" (Some 1);
                Sample.draw_line "c" (Some 3);
                Sample.erase "b" (Some 3)].
Proof.
  assert (ascending
            [Sample.draw_line "a" (Some 1); Sample.erase "b" (Some 3)])
    as Hl.
  { unfold ascending. simpl. repeat constructor. unfold key. simpl. lia. }
  split; [exact Hl|].
  exact (insertEvent_before_equal_keys _ (Sample.draw_line "c" (Some 3)) Hl).
Defined.

Lemma insert_all_ascending evs : ∀ l,
  ascending l →
  ∃ l', insert_all evs l = Returned l' ∧ l' ≡ₚ evs ++ l ∧ ascending l'.
Proof.
  induction evs as [|e evs IH]; intros l Hl; simpl; [by eauto|].
  destruct (insertEvent_ascending l e Hl) as (l1 & -> & Hperm & Hl1). simpl.
  destruct (IH l1 Hl1) as (l' & -> & Hperm' & Hl').
  exists l'. split; [done|]. split; [|done].
  rewrite Hperm', Hperm. by rewrite <- Permutation_middle.
Qed.

Lemma ascending_by_key l :
  ascending l ↔ StronglySorted (fun e1 e2 => key e1 ≤ key e2) l.
Proof.
  unfold ascending. induction l as [|e l IH].
  - split; constructor.
  - rewrite fmap_cons, !StronglySorted_cons, Forall_fmap, IH. done.
Qed.

Lemma ascending_distinct_strict l :
  ascending l → NoDup (key <$> l) → strictly_ascending l.
Proof.
  unfold ascending, strictly_ascending.
  induction (key <$> l) as [|k ks IH]; intros Hs Hnd; [constructor|].
  apply StronglySorted_cons in Hs as [Hall Hs].
  apply NoDup_cons in Hnd as [Hk Hnd].
  apply StronglySorted_cons. split; [|by apply IH].
  rewrite Forall_forall in *. intros k' Hk'.
  specialize (Hall _ Hk'). simpl in Hall.
  assert (k ≠ k') by (by intros ->). lia.
Qed.

(** X5.  Arrival order does not matter.  When events with pairwise
    different keys are handed to [insertEvent] one after the other, starting
    from the empty array, the resulting array is the same for every order
    of arrival: the events in strictly ascending order of key. *)
Theorem insertion_order_irrelevant evs evs' :
  NoDup (key <$> evs) →
  evs ≡ₚ evs' →
  ∃ l, insert_all evs [] = Returned l
       ∧ insert_all evs' [] = Returned l
       ∧ l ≡ₚ evs
       ∧ strictly_ascending l.
Proof.
  intros Hnd Hperm.
  assert (ascending []) as Hnil by constructor.
  destruct (insert_all_ascending evs [] Hnil) as (l1 & Hl1 & Hp1 & Hs1).
  destruct (insert_all_ascending evs' [] Hnil) as (l2 & Hl2 & Hp2 & Hs2).
  rewrite app_nil_r in Hp1, Hp2.
  assert (l1 = l2) as <-.
  { apply (StronglySorted_unique_strong
             (fun e1 e2 => key e1 ≤ key e2));
      [|by apply ascending_by_key|by apply ascending_by_key
       |by rewrite Hp1, Hp2].
    intros e1 e2 He1 He2 H12 H21.
    rewrite Hp1 in He1. rewrite Hp2, <- Hperm in He2.
    assert (key e1 = key e2) as Hk by lia.
    apply list_elem_of_lookup in He1 as [i Hi], He2 as [j Hj].
    assert (i = j) as ->.
    { apply (NoDup_lookup (key <$> evs) i j (key e1)); [done| |].
      - by rewrite list_lookup_fmap, Hi.
      - by rewrite list_lookup_fmap, Hj, Hk. }
    congruence. }
  exists l1. split; [done|]. split; [done|]. split; [done|].
  apply ascending_distinct_strict; [done|]. by rewrite Hp1.
Qed.

Lemma insertion_order_irrelevant_witness :
  let e1 := Sample.draw_line "a" (Some 1) in
  let e2 := Sample.erase "b" (Some 2) in
  let e3 := Sample.draw_line "c" (Some 3) in
  NoDup (key <$> [e1; e3; e2])
  ∧ [e1; e3; e2] ≡ₚ [e1; e2; e3]
  ∧ ∃ l, insert_all [e1; e3; e2] [] = Returned l
         ∧ insert_all [e1; e2; e3] [] = Returned l.
Proof.
  assert (NoDup (key <$> [Sample.draw_line "a" (Some 1);
                          Sample.draw_line "c" (Some 3);
                          Sample.erase "b" (Some 2)])) as Hnd.
  { apply NoDup_ListNoDup. unfold key. simpl.
    repeat constructor; simpl; intros H;
      repeat (destruct H as [H|H]; [discriminate H|]); exact H. }
  assert ([Sample.draw_line "a" (Some 1); Sample.draw_line "c" (Some 3);
           Sample.erase "b" (Some 2)]
          ≡ₚ [Sample.draw_line "a" (Some 1); Sample.erase "b" (Some 2);
              Sample.draw_line "c" (Some 3)]) as Hperm.
  { apply perm_skip, perm_swap. }
  split; [exact Hnd|]. split; [exact Hperm|].
  destruct (insertion_order_irrelevant _ _ Hnd Hperm)
    as (l & H1 & H2 & _).
  exists l. split; [exact H1|exact H2].
Defined.

End EventLogOrder.

(** ** The event log: rooms, catch-up and provenance *)

Section EventLogRooms.
Import EventStoreService.

Implicit Types (r : string) (s : state) (tr : list call)
  (l : list WhiteboardEvent) (e : WhiteboardEvent).

(** X6.  Rooms do not share logs or counters: a call addressed to another
    room returns and leaves [getEvents(roomId)], [getEventsAfter(roomId, k)]
    and the counter of the room as they were. *)
Theorem store_rooms_independent c r s :
  call_room c ≠ r →
  ∃ v s', exec c s = Returned (v, s')
          ∧ getEvents r s' = getEvents r s
          ∧ (∀ k, getEventsAfter r k s' = getEventsAfter r k s)
          ∧ SequenceManagerService.getCurrentSequence r (sequenceManager s')
            = SequenceManagerService.getCurrentSequence r (sequenceManager s).
Proof.
  intros Hne.
  assert (∃ v s', exec c s = Returned (v, s')
            ∧ getEvents r s' = getEvents r s
            ∧ SequenceManagerService.getCurrentSequence r (sequenceManager s')
              = SequenceManagerService.getCurrentSequence r
                  (sequenceManager s)) as (v & s' & Hex & Hlog & Hcnt).
  { destruct c as [r' e now|r'|r' k|r'|c]; simpl in *.
    - destruct (addEvent_returns r' e now s) as (p & _ & ->). simpl.
      eexists _, _. split; [done|]. split.
      + rewrite getEvents_insert. by rewrite decide_False.
      + by apply getCurrentSequence_next_ne.
    - by eauto.
    - by eauto.
    - eexists _, _. split; [done|]. split.
      + rewrite getEvents_clear. by rewrite decide_False.
      + by apply getCurrentSequence_reset_ne.
    - pose proof (exec_other_room c r (sequenceManager s) Hne) as Hc.
      destruct (SequenceManagerService.exec c (sequenceManager s)).
      by eauto. }
  exists v, s'. split; [done|]. split; [done|]. split; [|done].
  intros k. by rewrite !getEventsAfter_filter, Hlog.
Qed.

Lemma store_rooms_independent_witness :
  call_room (ClearRoomEvents "room-2") ≠ "room-1"
  ∧ ∃ v s', exec (ClearRoomEvents "room-2") init = Returned (v, s')
            ∧ getEvents "room-1" s' = getEvents "room-1" init.
Proof.
  assert (call_room (ClearRoomEvents "room-2") ≠ "room-1") as Hne
    by discriminate.
  split; [exact Hne|].
  destruct (store_rooms_independent _ _ init Hne)
    as (v & s' & Hex & Hlog & _).
  exists v, s'. split; [exact Hex|exact Hlog].
Defined.

Lemma split_sorted_log k l :
  ascending l → stamped l →
  l = List.filter (sequence_le k) l ++ List.filter (is_after (Int k)) l.
Proof.
  induction l as [|e l IH]; [done|].
  intros [Hall Hl]%ascending_cons Hst.
  apply Forall_cons in Hst as [(v & Hv & Hpos) Hst].
  assert (key e = v) as Hkey by (unfold key; by rewrite Hv, or_zero_default).
  simpl. unfold sequence_le at 1, is_after at 1. rewrite Hv. simpl.
  rewrite (truthy_pos v) by lia. simpl.
  destruct (Z.leb_spec v k) as [Hle|Hgt].
  - destruct (Z.ltb_spec k v) as [?|_]; [lia|].
    simpl. f_equal. by apply IH.
  - destruct (Z.ltb_spec k v) as [_|?]; [|lia].
    rewrite filter_none, filter_all; [done| |].
    + eapply Forall_impl; [apply Forall_and; split; [exact Hall|exact Hst]|].
      intros e' [Hle (v' & Hv' & Hpos')]. simpl in *.
      assert (key e' = v') as Hkey'
        by (unfold key; by rewrite Hv', or_zero_default).
      unfold is_after. rewrite Hv'. simpl. rewrite (truthy_pos v') by lia.
      simpl. destruct (Z.ltb_spec k v'); [done|lia].
    + eapply Forall_impl; [apply Forall_and; split; [exact Hall|exact Hst]|].
      intros e' [Hle (v' & Hv' & Hpos')]. simpl in *.
      assert (key e' = v') as Hkey'
        by (unfold key; by rewrite Hv', or_zero_default).
      unfold sequence_le. rewrite Hv'.
      destruct (Z.leb_spec v' k); [lia|done].
Qed.

(** X7.  Catch-up completes what the client has.  In every state the calls
    can reach, the log of a room is the events with [sequence <= k]
    followed by [getEventsAfter(roomId, k)]: a client that holds the events
    up to [k] and appends the catch-up holds the log. *)
Theorem log_is_prefix_then_catch_up tr :
  ∃ s, run tr init = Returned s ∧
    ∀ r k,
      getEvents r s
      = List.filter (sequence_le k) (getEvents r s)
        ++ getEventsAfter r (Int k) s.
Proof.
  destruct (run_consistent tr init consistent_init)
    as (s & Hrun & [_ Hasc Hst]).
  exists s. split; [done|]. intros r k.
  rewrite getEventsAfter_filter. by apply split_sorted_log.
Qed.

(** X8.  A client that is up to date gets nothing.  When the sequence
    manager has not been reset behind the store, [getEventsAfter(roomId, k)]
    is empty for every [k] from [getCurrentSequence(roomId)] on: no stored
    event has a sequence above the counter of its room. *)
Theorem caught_up_client_gets_nothing tr :
  no_direct_reset tr = true →
  ∃ s, run tr init = Returned s ∧
    ∀ r k,
      SequenceManagerService.getCurrentSequence r (sequenceManager s) ≤ k →
      getEventsAfter r (Int k) s = [].
Proof.
  intros Htr.
  destruct (run_in_step tr init in_step_init Htr) as (s & Hrun & Hs).
  exists s. split; [done|]. intros r k Hk.
  rewrite getEventsAfter_filter. apply filter_none.
  destruct (Hs r) as [_ Hbelow].
  eapply Forall_impl; [exact Hbelow|]. intros e He. simpl in He.
  unfold is_after. unfold key in He. rewrite or_zero_default in He.
  destruct (Event.sequence e) as [v|]; [|done]. simpl in *.
  destruct (Z.ltb_spec k v); [lia|]. by rewrite andb_false_r.
Qed.

Lemma caught_up_client_gets_nothing_witness :
  let tr := [AddEvent "room-1" (Sample.draw_line "a" None) 1000;
             AddEvent "room-1" (Sample.erase "b" None) 1001] in
  no_direct_reset tr = true
  ∧ ∃ s, run tr init = Returned s
         ∧ SequenceManagerService.getCurrentSequence "room-1"
             (sequenceManager s) ≤ 2
         ∧ getEventsAfter "room-1" (Int 2) s = [].
Proof.
  split; [reflexivity|].
  destruct (caught_up_client_gets_nothing
              [AddEvent "room-1" (Sample.draw_line "a" None) 1000;
               AddEvent "room-1" (Sample.erase "b" None) 1001] eq_refl)
    as (s & Hrun & Hs).
  assert (SequenceManagerService.getCurrentSequence "room-1"
            (sequenceManager s) ≤ 2) as Hle.
  { pose proof Hrun as Hrun'. vm_compute in Hrun'.
    injection Hrun' as <-. vm_compute. discriminate. }
  exists s. split; [exact Hrun|]. split; [exact Hle|].
  exact (Hs "room-1" 2 Hle).
Defined.

End EventLogRooms.

(** ** The event log used through the store alone *)

Section EventLogDense.
Import EventStoreService.

Implicit Types (r : string) (s : state) (tr : list call)
  (l : list WhiteboardEvent) (e : WhiteboardEvent).

Lemma dense_init : dense init.
Proof.
  intros r. unfold getEvents, init. simpl. rewrite lookup_empty.
  split; [done|]. apply getCurrentSequence_init.
Qed.

Lemma dense_below_counter r s : dense s → below_counter r s.
Proof.
  intros Hd. destruct (Hd r) as [Hseq Hcnt].
  unfold below_counter. rewrite Hcnt. apply Forall_lookup. intros i e Hi.
  assert ((Event.sequence <$> getEvents r s) !! i = Some (Event.sequence e))
    as Hi' by (by rewrite list_lookup_fmap, Hi).
  rewrite Hseq, list_lookup_fmap in Hi'.
  pose proof (lookup_lt_Some _ _ _ Hi) as Hlt.
  rewrite lookup_seq_lt in Hi' by done. simpl in Hi'.
  unfold key. injection Hi' as <-. rewrite or_zero_default. simpl. lia.
Qed.

Lemma exec_dense c s :
  dense s →
  store_only [c] = true →
  ∃ v s', exec c s = Returned (v, s') ∧ dense s'.
Proof.
  intros Hd Hc. destruct c as [r e now|r|r k|r|c]; simpl; try by eauto.
  - rewrite (addEvent_tail r e now s (dense_below_counter r s Hd)). simpl.
    eexists _, _. split; [done|]. intros r'.
    rewrite getEvents_insert.
    change (sequenceManager (mk _ ?sm)) with sm.
    change (SequenceManagerService.mk _)
      with (snd (SequenceManagerService.getNextSequence r
                   (sequenceManager s))).
    destruct (decide (r = r')) as [<-|Hne].
    + destruct (Hd r) as [Hseq Hcnt].
      rewrite getCurrentSequence_next, Hcnt, length_app. simpl.
      split; [|lia].
      rewrite Nat.add_1_r, seq_S, !fmap_app, Hseq. simpl.
      do 3 f_equal. lia.
    + rewrite getCurrentSequence_next_ne by done. apply Hd.
  - eexists _, _. split; [done|]. intros r'.
    rewrite getEvents_clear. simpl.
    destruct (decide (r = r')) as [<-|Hne].
    + split; [done|]. apply getCurrentSequence_reset.
    + rewrite getCurrentSequence_reset_ne by done. apply Hd.
  - destruct c as [r|r|r]; simpl in *; [done| |done].
    eexists _, _. split; [done|]. by destruct s.
Qed.

Lemma run_dense tr : ∀ s,
  dense s → store_only tr = true →
  ∃ s', run tr s = Returned s' ∧ dense s'.
Proof.
  induction tr as [|c tr IH]; intros s Hs Htr; simpl; [by eauto|].
  simpl in Htr. apply andb_true_iff in Htr as [Hc Htr].
  destruct (exec_dense c s Hs) as (v & s1 & -> & Hs1).
  { simpl. by rewrite Hc. }
  simpl. by apply IH.
Qed.

(** X9.  No gaps, clears included.  When the sequence manager is used
    through the store only, after any calls -- for any rooms, with
    [clearRoomEvents] among them -- the log of every room carries exactly
    the sequence numbers [1, 2, ..., n], and [n], the number of events of
    the log, is [getCurrentSequence] of the room. *)
Theorem store_only_logs_have_no_gaps tr :
  store_only tr = true →
  ∃ s, run tr init = Returned s ∧
    ∀ r,
      Event.sequence <$> getEvents r s
      = (fun i => Some (Z.of_nat i)) <$> seq 1 (length (getEvents r s))
      ∧ SequenceManagerService.getCurrentSequence r (sequenceManager s)
        = Z.of_nat (length (getEvents r s)).
Proof. intros Htr. exact (run_dense tr init dense_init Htr). Qed.

Lemma store_only_logs_have_no_gaps_witness :
  let tr := [AddEvent "room-1" (Sample.draw_line "a" None) 1000;
             ClearRoomEvents "room-1";
             AddEvent "room-1" (Sample.erase "b" (Some 9)) 1001] in
  store_only tr = true
  ∧ ∃ s, run tr init = Returned s
         ∧ SequenceManagerService.getCurrentSequence "room-1"
             (sequenceManager s)
           = Z.of_nat (length (getEvents "room-1" s)).
Proof.
  split; [reflexivity|].
  destruct (store_only_logs_have_no_gaps
              [AddEvent "room-1" (Sample.draw_line "a" None) 1000;
               ClearRoomEvents "room-1";
               AddEvent "room-1" (Sample.erase "b" (Some 9)) 1001] eq_refl)
    as (s & Hrun & Hs).
  exists s. split; [exact Hrun|]. exact (proj2 (Hs "room-1")).
Defined.

Lemma catch_up_drops k : ∀ l (a : nat),
  (1 ≤ a)%nat →
  Event.sequence <$> l
  = (fun i => Some (Z.of_nat i)) <$> seq a (length l) →
  List.filter (is_after (Int k)) l = drop (Z.to_nat k - (a - 1)) l.
Proof.
  induction l as [|e l IH]; intros a Ha Hseq.
  - by rewrite drop_nil.
  - simpl in Hseq. injection Hseq as He Hseq.
    specialize (IH (S a) ltac:(lia) Hseq).
    simpl. unfold is_after at 1. rewrite He. simpl.
    rewrite truthy_pos by lia. simpl.
    destruct (Z.ltb_spec k (Z.of_nat a)) as [Hlt|Hge].
    + rewrite IH.
      replace (Z.to_nat k - (a - 1))%nat with 0%nat by lia.
      replace (Z.to_nat k - (S a - 1))%nat with 0%nat by lia.
      done.
    + rewrite IH.
      replace (Z.to_nat k - (a - 1))%nat
        with (S (Z.to_nat k - (S a - 1)))%nat by lia.
      done.
Qed.

(** X10.  Catch-up by position.  When the sequence manager is used through
    the store only, [getEventsAfter(roomId, k)] is [getEvents(roomId)]
    without its first [k] events (all of it for [k <= 0], nothing for [k]
    from the length on): the event with sequence [i] is the [i]-th of the
    log. *)
Theorem catch_up_skips_first_k tr :
  store_only tr = true →
  ∃ s, run tr init = Returned s ∧
    ∀ r k,
      getEventsAfter r (Int k) s = drop (Z.to_nat k) (getEvents r s)
      ∧ length (getEventsAfter r (Int k) s)
        = (length (getEvents r s) - Z.to_nat k)%nat.
Proof.
  intros Htr. destruct (run_dense tr init dense_init Htr) as (s & Hrun & Hd).
  exists s. split; [done|]. intros r k.
  destruct (Hd r) as [Hseq _].
  rewrite getEventsAfter_filter, (catch_up_drops k _ 1 ltac:(lia) Hseq).
  replace (Z.to_nat k - (1 - 1))%nat with (Z.to_nat k) by lia.
  split; [done|]. apply length_drop.
Qed.

Lemma catch_up_skips_first_k_witness :
  let tr := [AddEvent "room-1" (Sample.draw_line "a" None) 1000;
             AddEvent "room-1" (Sample.erase "b" None) 1001] in
  store_only tr = true
  ∧ ∃ s, run tr init = Returned s
         ∧ getEventsAfter "room-1" (Int 1) s
           = drop 1 (getEvents "room-1" s).
Proof.
  split; [reflexivity|].
  destruct (catch_up_skips_first_k
              [AddEvent "room-1" (Sample.draw_line "a" None) 1000;
               AddEvent "room-1" (Sample.erase "b" None) 1001] eq_refl)
    as (s & Hrun & Hs).
  exists s. split; [exact Hrun|]. exact (proj1 (Hs "room-1" 1)).
Defined.

End EventLogDense.

(** ** The event log: what it holds, and clearing what is not there *)

Section EventLogContents.
Import EventStoreService.

Implicit Types (r : string) (s : state) (tr : list call)
  (l : list WhiteboardEvent) (e : WhiteboardEvent).

Lemma run_provenance tr : ∀ s,
  ∃ s', run tr s = Returned s' ∧
    ∀ r e', e' ∈ getEvents r s' →
      e' ∈ getEvents r s
      ∨ ∃ e now n, AddEvent r e now ∈ tr ∧ e' = stamp e n now.
Proof.
  induction tr as [|c tr IH]; intros s; simpl; [by eauto|].
  assert (∃ v s1, exec c s = Returned (v, s1) ∧
            ∀ r e', e' ∈ getEvents r s1 →
              e' ∈ getEvents r s
              ∨ ∃ e now n, c = AddEvent r e now ∧ e' = stamp e n now)
    as (v & s1 & Hex & Hstep).
  { destruct c as [r' e now|r'|r' k|r'|c]; simpl; try by eauto.
    - destruct (addEvent_returns r' e now s) as (p & _ & ->). simpl.
      eexists _, _. split; [done|]. intros r e'.
      rewrite getEvents_insert. destruct (decide (r' = r)) as [->|Hne].
      + rewrite splice_in_perm. intros [->|He']%elem_of_cons; [|by left].
        right. by eauto.
      + by left.
    - eexists _, _. split; [done|]. intros r e'.
      rewrite getEvents_clear. destruct (decide (r' = r)).
      + by intros ?%elem_of_nil.
      + by left.
    - destruct (SequenceManagerService.exec c (sequenceManager s)).
      by eauto. }
  rewrite Hex. simpl. destruct (IH s1) as (s' & Hrun & Hrest).
  exists s'. split; [done|]. intros r e' He'.
  destruct (Hrest r e' He') as [Hin|(e & now & n & Hin & ->)].
  - destruct (Hstep r e' Hin) as [?|(e & now & n & -> & ->)]; [by left|].
    right. exists e, now, n. split; [apply elem_of_cons; by left|done].
  - right. exists e, now, n. split; [apply elem_of_cons; by right|done].
Qed.

(** X11.  The log holds admitted events only.  After any calls on a new
    store, every event of [getEvents(roomId)] is the stamped copy of an
    event that was given to [addEvent] with this very [roomId] as its first
    argument: nothing is made up, and nothing is filed under a room other
    than the one named in the call (whatever [roomId] the event itself
    carries). *)
Theorem log_holds_admitted_events_only tr :
  ∃ s, run tr init = Returned s ∧
    ∀ r e', e' ∈ getEvents r s →
      ∃ e now n, AddEvent r e now ∈ tr ∧ e' = stamp e n now.
Proof.
  destruct (run_provenance tr init) as (s & Hrun & Hs).
  exists s. split; [done|]. intros r e' He'.
  destruct (Hs r e' He') as [Hin|?]; [|done].
  unfold getEvents, init in Hin. simpl in Hin. rewrite lookup_empty in Hin.
  by apply elem_of_nil in Hin.
Qed.

Lemma log_holds_admitted_events_only_witness :
  let tr := [AddEvent "room-1" (Sample.draw_line "a" (Some 5)) 1000;
             AddEvent "room-2" (Sample.erase "b" None) 1001] in
  let e' := stamp (Sample.draw_line "a" (Some 5)) 1 1000 in
  ∃ s, run tr init = Returned s
       ∧ e' ∈ getEvents "room-1" s
       ∧ ∃ e now n, AddEvent "room-1" e now ∈ tr ∧ e' = stamp e n now.
Proof.
  destruct (log_holds_admitted_events_only
              [AddEvent "room-1" (Sample.draw_line "a" (Some 5)) 1000;
               AddEvent "room-2" (Sample.erase "b" None) 1001])
    as (s & Hrun & Hs).
  assert (stamp (Sample.draw_line "a" (Some 5)) 1 1000
          ∈ getEvents "room-1" s) as Hin.
  { pose proof Hrun as Hrun'. vm_compute in Hrun'.
    injection Hrun' as <-. vm_compute. constructor. }
  exists s. split; [exact Hrun|]. split; [exact Hin|].
  exact (Hs "room-1" _ Hin).
Defined.

Lemma run_unreferenced r tr : ∀ s,
  forallb (fun c => negb (bool_decide (call_room c = r))) tr = true →
  events s !! r = None →
  SequenceManagerService.sequences (sequenceManager s) !! r = None →
  ∃ s', run tr s = Returned s'
        ∧ events s' !! r = None
        ∧ SequenceManagerService.sequences (sequenceManager s') !! r = None.
Proof.
  induction tr as [|c tr IH]; intros s Htr Hev Hsq; simpl; [by eauto|].
  simpl in Htr. apply andb_true_iff in Htr as [Hc Htr].
  apply negb_true_iff, bool_decide_eq_false in Hc.
  destruct c as [r' e now|r'|r' k|r'|c]; simpl in *.
  - destruct (addEvent_returns r' e now s) as (p & _ & ->). simpl.
    apply IH; [done| |]; simpl; by rewrite lookup_insert_ne.
  - by apply IH.
  - by apply IH.
  - apply IH; [done| |]; simpl; by rewrite lookup_delete_ne.
  - destruct c as [r'|r'|r']; simpl in *.
    + apply IH; [done|done|]. simpl. by rewrite lookup_insert_ne.
    + by apply IH.
    + apply IH; [done|done|]. simpl. by rewrite lookup_delete_ne.
Qed.

(** X12.  Clearing what is not there.  [clearRoomEvents(roomId)] for a room
    that no call has named leaves the store and the sequence manager
    exactly as they are, and clearing a room twice is clearing it once. *)
Theorem clearRoomEvents_unknown_room tr r :
  forallb (fun c => negb (bool_decide (call_room c = r))) tr = true →
  (∃ s, run tr init = Returned s ∧ clearRoomEvents r s = s)
  ∧ (∀ s, clearRoomEvents r (clearRoomEvents r s) = clearRoomEvents r s).
Proof.
  intros Htr. split.
  - destruct (run_unreferenced r tr init Htr) as (s & Hrun & Hev & Hsq);
      [done|done|].
    exists s. split; [done|].
    unfold clearRoomEvents, SequenceManagerService.resetSequence.
    rewrite !delete_id by done.
    by destruct s as [evs [sq]].
  - intros s. unfold clearRoomEvents, SequenceManagerService.resetSequence.
    simpl. by rewrite !delete_delete_eq.
Qed.

Lemma clearRoomEvents_unknown_room_witness :
  let tr := [AddEvent "room-1" (Sample.draw_line "a" None) 1000;
             Manager (SequenceManagerService.GetNextSequence "room-3")] in
  forallb (fun c => negb (bool_decide (call_room c = "room-2"))) tr = true
  ∧ ∃ s, run tr init = Returned s ∧ clearRoomEvents "room-2" s = s.
Proof.
  split; [reflexivity|].
  exact (proj1 (clearRoomEvents_unknown_room
           [AddEvent "room-1" (Sample.draw_line "a" None) 1000;
            Manager (SequenceManagerService.GetNextSequence "room-3")]
           "room-2" eq_refl)).
Defined.

End EventLogContents.

(** ** The HTTP write path, and reading after writing *)

Section WritePath.
Import EventStoreService EventStoreRouter.

Implicit Types (s : EventStoreService.state) (tr : list call).

(** X13.  [POST /] never answers 500.  In every state the reply is the
    success body, its event is the event given, stamped with the next
    sequence number of the room and the time of the call, and the store is
    left as [addEvent] leaves it, with that event in the log of the room. *)
Theorem post_event_succeeds room event now s :
  ∃ e s',
    post_event room event now s
    = (PostJson true e "Event processed and stored", s')
    ∧ addEvent room event now s = Returned (e, s')
    ∧ e = stamp event
            (SequenceManagerService.getCurrentSequence room
               (sequenceManager s) + 1) now
    ∧ e ∈ getEvents room s'.
Proof.
  destruct (addEvent_returns room event now s) as (p & _ & Hadd).
  simpl in Hadd. unfold post_event. rewrite Hadd.
  eexists _, _. split; [done|]. split; [done|]. split; [done|].
  rewrite getEvents_insert, decide_True by done.
  rewrite splice_in_perm. apply elem_of_cons. by left.
Qed.

(** X14.  Reading after writing.  On a store whose sequence manager has not
    been reset behind it, after [POST /] for a room, [GET /:roomId] lists
    the events that were there followed by the event the POST returned;
    [count] is one more than before; [lastSequence] is the sequence of that
    event; and a client that was up to date before the POST gets exactly
    that event as its catch-up. *)
Theorem post_then_get tr room event now :
  no_direct_reset tr = true →
  ∃ s e s' b,
    run tr init = Returned s
    ∧ post_event room event now s
      = (PostJson true e "Event processed and stored", s')
    ∧ get_room room None s' = Json b
    ∧ events b = getEvents room s ++ [e]
    ∧ count b = S (length (getEvents room s))
    ∧ Event.sequence e = Some (lastSequence b)
    ∧ getEventsAfter room
        (Int (SequenceManagerService.getCurrentSequence room
                (sequenceManager s))) s'
      = [e].
Proof.
  intros Htr.
  destruct (run_in_step tr init in_step_init Htr) as (s & Hrun & Hs).
  destruct (run_consistent tr init consistent_init)
    as (s0 & Hrun0 & [Hpos _ _]).
  rewrite Hrun in Hrun0. injection Hrun0 as <-.
  destruct (Hs room) as [_ Hbelow].
  pose proof (addEvent_tail room event now s Hbelow) as Hadd.
  cbv zeta in Hadd.
  pose proof (counter_nonneg room _ Hpos) as Hcnt.
  set (n := SequenceManagerService.getCurrentSequence room
              (sequenceManager s)) in *.
  set (e := stamp event (n + 1) now) in *.
  eexists s, e, _, _. split; [done|].
  split; [unfold post_event; by rewrite Hadd|].
  unfold get_room. simpl. split; [done|]. simpl.
  rewrite !getEvents_insert, !decide_True by done.
  split; [done|]. split; [rewrite length_app; simpl; lia|].
  split.
  - unfold last_sequence. rewrite last_snoc. simpl.
    by rewrite truthy_pos by lia.
  - rewrite getEventsAfter_filter, getEvents_insert, decide_True by done.
    rewrite List.filter_app, filter_none.
    + simpl. unfold is_after. simpl. rewrite truthy_pos by lia.
      simpl. fold n. by destruct (Z.ltb_spec n (n + 1)); [|lia].
    + eapply Forall_impl; [exact Hbelow|]. intros e' He'. simpl in He'.
      fold n in He'. unfold is_after. unfold key in He'.
      rewrite or_zero_default in He'.
      destruct (Event.sequence e') as [v|]; [|done]. simpl in *.
      fold n. destruct (Z.ltb_spec n v); [lia|]. by rewrite andb_false_r.
Qed.

Lemma post_then_get_witness :
  let tr := [AddEvent "room-1" (Sample.draw_line "a" None) 1000;
             Manager (SequenceManagerService.GetNextSequence "room-1")] in
  no_direct_reset tr = true
  ∧ ∃ s e s' b,
      run tr init = Returned s
      ∧ post_event "room-1" (Sample.erase "b" None) 1001 s
        = (PostJson true e "Event processed and stored", s')
      ∧ get_room "room-1" None s' = Json b
      ∧ events b = getEvents "room-1" s ++ [e].
Proof.
  split; [reflexivity|].
  destruct (post_then_get
              [AddEvent "room-1" (Sample.draw_line "a" None) 1000;
               Manager (SequenceManagerService.GetNextSequence "room-1")]
              "room-1" (Sample.erase "b" None) 1001 eq_refl)
    as (s & e & s' & b & Hrun & Hpost & Hget & Hev & _).
  exists s, e, s', b.
  split; [exact Hrun|]. split; [exact Hpost|]. split; [exact Hget|exact Hev].
Defined.

(** X15.  An [after] that is no number.  In every state, [GET /:roomId]
    with an empty [after] answers as without [after] (all events), and with
    a non-empty [after] that [parseInt] cannot read it answers with no
    events, [count] 0 and [lastSequence] 0 -- not with an error. *)
Theorem get_room_after_not_a_number room s :
  get_room room (Some "") s = get_room room None s
  ∧ ∀ a, parseInt a = NaN → a ≠ "" →
      get_room room (Some a) s = Json (mkBody room [] 0 0).
Proof.
  split; [apply get_room_after_empty|].
  intros a. apply get_room_after_NaN.
Qed.

Lemma get_room_after_not_a_number_witness :
  parseInt "latest" = NaN
  ∧ "latest" ≠ ""
  ∧ get_room "room-1" (Some "latest") init = Json (mkBody "room-1" [] 0 0).
Proof.
  assert (parseInt "latest" = NaN) as Hnan by reflexivity.
  assert ("latest" ≠ "") as Hne by discriminate.
  split; [exact Hnan|]. split; [exact Hne|].
  exact (proj2 (get_room_after_not_a_number "room-1" init) _ Hnan Hne).
Defined.

Lemma get_room_no_after room s :
  get_room room None s
  = Json (mkBody room (getEvents room s) (length (getEvents room s))
            (last_sequence (getEvents room s))).
Proof. done. Qed.

Lemma last_sequence_dense (l : list WhiteboardEvent) :
  Event.sequence <$> l
  = (fun i => Some (Z.of_nat i)) <$> seq 1 (length l) →
  last_sequence l = Z.of_nat (length l).
Proof.
  destruct l as [|e0 l0 _] using rev_ind; [done|]. intros Hseq.
  unfold last_sequence. rewrite last_snoc. simpl.
  rewrite length_app, Nat.add_1_r, seq_S, !fmap_app in Hseq.
  apply app_inj_tail in Hseq as [_ Hlast]. simpl in Hlast.
  rewrite Hlast, or_zero_default, length_app. simpl. lia.
Qed.

(** X16.  What the read path reports when the sequence manager is used
    through the store only: for [GET /:roomId] without [after], [count] and
    [lastSequence] are the same number, the [getCurrentSequence] of the
    room; with [after] an integer [k], [count] is what is left of that
    number beyond [k]. *)
Theorem get_room_counts tr :
  store_only tr = true →
  ∃ s, run tr init = Returned s ∧
    ∀ room,
      (∃ b, get_room room None s = Json b
            ∧ Z.of_nat (count b) = lastSequence b
            ∧ lastSequence b
              = SequenceManagerService.getCurrentSequence room
                  (sequenceManager s))
      ∧ (∀ a k, parseInt a = Int k →
           ∃ b, get_room room (Some a) s = Json b
                ∧ count b
                  = (Z.to_nat (SequenceManagerService.getCurrentSequence room
                                 (sequenceManager s)) - Z.to_nat k)%nat).
Proof.
  intros Htr. destruct (run_dense tr init dense_init Htr) as (s & Hrun & Hd).
  exists s. split; [done|]. intros room.
  destruct (Hd room) as [Hseq Hcnt]. split.
  - eexists. split; [apply get_room_no_after|]. simpl.
    rewrite (last_sequence_dense _ Hseq), Hcnt. done.
  - intros a k Hk. unfold get_room.
    rewrite (parseInt_truthy a k Hk). simpl. rewrite Hk.
    eexists. split; [done|]. simpl.
    rewrite getEventsAfter_filter, (catch_up_drops k _ 1 ltac:(lia) Hseq).
    rewrite length_drop, Hcnt. lia.
Qed.

Lemma get_room_counts_witness :
  let tr := [AddEvent "room-1" (Sample.draw_line "a" None) 1000;
             AddEvent "room-1" (Sample.erase "b" None) 1001;
             AddEvent "room-1" (Sample.erase "c" None) 1002] in
  store_only tr = true
  ∧ parseInt "1" = Int 1
  ∧ ∃ s b, run tr init = Returned s
           ∧ get_room "room-1" (Some "1") s = Json b
           ∧ count b
             = (Z.to_nat (SequenceManagerService.getCurrentSequence "room-1"
                            (sequenceManager s)) - Z.to_nat 1)%nat.
Proof.
  split; [reflexivity|]. split; [reflexivity|].
  destruct (get_room_counts
              [AddEvent "room-1" (Sample.draw_line "a" None) 1000;
               AddEvent "room-1" (Sample.erase "b" None) 1001;
               AddEvent "room-1" (Sample.erase "c" None) 1002] eq_refl)
    as (s & Hrun & Hs).
  destruct (proj2 (Hs "room-1") "1" 1 eq_refl) as (b & Hb & Hcount).
  exists s, b. split; [exact Hrun|]. split; [exact Hb|exact Hcount].
Defined.

End WritePath.

(** ** The presence store: counting, joining, leaving, pointing *)

Section PresenceLifecycle.
Import PresenceStore.

Implicit Types (s : state) (tr : list call) (u v : string).

Lemma size_delete_active {A} (m : gmap string A) u :
  is_Some (m !! u) → S (size (delete u m)) = size m.
Proof.
  intros [x Hx]. rewrite <- (insert_delete_id m u x Hx) at 2.
  rewrite map_size_insert_None; [done|]. apply lookup_delete_eq.
Qed.

(** X17.  The number of active users.  [activeUserCount] goes up by one
    when [addUser] adds a user who was not active and stays as it is when
    the user already was; it goes down by one when [removeUser] removes an
    active user and stays as it is otherwise; [updateCursor] never changes
    it; after [clearAll] it is 0. *)
Theorem activeUserCount_steps s :
  (∀ u n c now, activeUsers s !! u = None →
     activeUserCount (addUser u n c now s) = S (activeUserCount s))
  ∧ (∀ u n c now, is_Some (activeUsers s !! u) →
       activeUserCount (addUser u n c now s) = activeUserCount s)
  ∧ (∀ u, is_Some (activeUsers s !! u) →
       S (activeUserCount (removeUser u s)) = activeUserCount s)
  ∧ (∀ u, activeUsers s !! u = None →
       activeUserCount (removeUser u s) = activeUserCount s)
  ∧ (∀ u x y now,
       activeUserCount (updateCursor u x y now s) = activeUserCount s)
  ∧ activeUserCount (clearAll s) = 0%nat.
Proof.
  unfold activeUserCount. repeat split.
  - intros u n c now Hu. unfold addUser. rewrite Hu. simpl.
    by apply map_size_insert_None.
  - intros u n c now Hu. by rewrite addUser_existing.
  - intros u Hu. simpl. by apply size_delete_active.
  - intros u Hu. simpl. by apply map_size_delete_None.
  - intros u x y now. unfold updateCursor.
    by destruct (activeUsers s !! u).
Qed.

Lemma activeUserCount_steps_witness :
  let s := run [AddUser "user-1" "Alice" None 1000] init in
  (activeUsers s !! "user-2" = None
   ∧ activeUserCount (addUser "user-2" "Bob" None 1001 s)
     = S (activeUserCount s))
  ∧ (is_Some (activeUsers s !! "user-1")
     ∧ activeUserCount (addUser "user-1" "Al" None 1001 s)
       = activeUserCount s
     ∧ S (activeUserCount (removeUser "user-1" s)) = activeUserCount s)
  ∧ activeUserCount (removeUser "user-2" s) = activeUserCount s.
Proof.
  assert (activeUsers (run [AddUser "user-1" "Alice" None 1000] init)
            !! "user-2" = None) as Hu by (vm_compute; reflexivity).
  assert (is_Some (activeUsers (run [AddUser "user-1" "Alice" None 1000]
                                    init) !! "user-1")) as Ha
    by (eexists; vm_compute; reflexivity).
  pose proof (activeUserCount_steps
                (run [AddUser "user-1" "Alice" None 1000] init))
    as (Hadd & Hsame & Hrem & Hrem' & _).
  split; [split; [exact Hu|exact (Hadd _ "Bob" None 1001 Hu)]|].
  split; [|exact (Hrem' _ Hu)].
  split; [exact Ha|].
  split; [exact (Hsame _ "Al" None 1001 Ha)|exact (Hrem _ Ha)].
Defined.

Lemma palette_colors_not_empty : Forall (fun c => c ≠ "") USER_COLORS.
Proof. unfold USER_COLORS. repeat constructor; discriminate. Qed.

Lemma color_or_default_not_empty c u : color_or_default c u ≠ "".
Proof.
  assert (getUserColor u ≠ "") as Hpal.
  { pose proof palette_colors_not_empty as Hall.
    rewrite Forall_forall in Hall. apply Hall, getUserColor_in_palette. }
  unfold color_or_default. destruct c as [c|]; [|done].
  by case_bool_decide.
Qed.

(** X18.  Joining and looking up.  After [addUser(userId, userName, color)]
    for a user who was not active, [getUser(userId)] is the entry with that
    id and name, the time of the call as [joinedAt], and as color the color
    given when it is a non-empty string and a color of the palette
    otherwise; [isUserActive(userId)] is true; and the entry of every other
    user is what it was. *)
Theorem addUser_then_getUser u n c now s :
  activeUsers s !! u = None →
  (∃ col, getUser u (addUser u n c now s)
          = Some (UserPresence.mk u n col now)
          ∧ match c with
            | Some given => if bool_decide (given = "")
                            then col ∈ USER_COLORS else col = given
            | None => col ∈ USER_COLORS
            end)
  ∧ isUserActive u (addUser u n c now s) = true
  ∧ ∀ v, v ≠ u → getUser v (addUser u n c now s) = getUser v s.
Proof.
  intros Hu. unfold getUser, isUserActive, addUser. rewrite Hu. simpl.
  split; [|split].
  - exists (color_or_default c u). rewrite lookup_insert_eq.
    split; [done|]. unfold color_or_default.
    destruct c as [given|]; [|apply getUserColor_in_palette].
    case_bool_decide; [apply getUserColor_in_palette|done].
  - rewrite lookup_insert_eq. by apply bool_decide_eq_true_2.
  - intros v Hv. by rewrite lookup_insert_ne.
Qed.

Lemma addUser_then_getUser_witness :
  activeUsers init !! "user-1" = None
  ∧ getUser "user-1" (addUser "user-1" "Alice" (Some "#123456") 1000 init)
    = Some (UserPresence.mk "user-1" "Alice" "#123456" 1000).
Proof.
  assert (activeUsers init !! "user-1" = None) as Hu by reflexivity.
  split; [exact Hu|].
  destruct (proj1 (addUser_then_getUser "user-1" "Alice" (Some "#123456")
                     1000 init Hu)) as (col & Hget & Hcol).
  simpl in Hcol. rewrite Hget, Hcol. reflexivity.
Defined.

(** X19.  Joining and leaving again.  In every state the store reaches, a
    user who was not active, joins and leaves, leaves the store exactly as
    it was; and in any state removing a user twice is removing the user
    once. *)
Theorem addUser_then_removeUser :
  (∀ tr u n c now,
     activeUsers (run tr init) !! u = None →
     removeUser u (addUser u n c now (run tr init)) = run tr init)
  ∧ (∀ s u, removeUser u (removeUser u s) = removeUser u s).
Proof.
  split.
  - intros tr u n c now Hu.
    pose proof (run_cursors_of_active tr init cursors_of_active_init) as Hinv.
    assert (userCursors (run tr init) !! u = None) as Hcur.
    { apply not_elem_of_dom. apply not_elem_of_dom in Hu.
      intros Hin. by apply Hu, Hinv. }
    unfold removeUser, addUser. rewrite Hu. simpl.
    rewrite delete_insert_id by done. rewrite delete_id by done.
    by destruct (run tr init).
  - intros s u. unfold removeUser. simpl. by rewrite !delete_delete_eq.
Qed.

Lemma addUser_then_removeUser_witness :
  let s := run [AddUser "user-1" "Alice" None 1000;
                UpdateCursor "user-1" 1 2 1001] init in
  activeUsers s !! "user-2" = None
  ∧ removeUser "user-2" (addUser "user-2" "Bob" None 1002 s) = s.
Proof.
  assert (activeUsers (run [AddUser "user-1" "Alice" None 1000;
                            UpdateCursor "user-1" 1 2 1001] init)
            !! "user-2" = None) as Hu by (vm_compute; reflexivity).
  split; [exact Hu|].
  exact (proj1 addUser_then_removeUser _ _ "Bob" None 1002 Hu).
Defined.

(** X20.  Pointing.  For an active user, [getCursor(userId)] after
    [updateCursor(userId, x, y)] is the position [(x, y)] with the time of
    the call; the cursors of other users and the active users are as they
    were; and of two updates in a row for the same user only the second
    counts. *)
Theorem updateCursor_then_getCursor s u x y now :
  (is_Some (activeUsers s !! u) →
     getCursor u (updateCursor u x y now s)
     = Some (CursorPosition.mk x y now))
  ∧ (∀ v, v ≠ u →
       getCursor v (updateCursor u x y now s) = getCursor v s)
  ∧ activeUsers (updateCursor u x y now s) = activeUsers s
  ∧ (∀ x' y' now',
       updateCursor u x' y' now' (updateCursor u x y now s)
       = updateCursor u x' y' now' s).
Proof.
  unfold getCursor, updateCursor.
  destruct (activeUsers s !! u) as [p|] eqn:Hu; simpl.
  - split; [intros _; by rewrite lookup_insert_eq|].
    split; [intros v Hv; by rewrite lookup_insert_ne|].
    split; [done|]. intros x' y' now'. rewrite Hu. simpl.
    by rewrite insert_insert_eq.
  - split; [by intros [? ?]|]. split; [done|]. split; [done|].
    intros x' y' now'. by rewrite Hu.
Qed.

Lemma updateCursor_then_getCursor_witness :
  let s := run [AddUser "user-1" "Alice" None 1000] init in
  is_Some (activeUsers s !! "user-1")
  ∧ getCursor "user-1" (updateCursor "user-1" 10 20 1001 s)
    = Some (CursorPosition.mk 10 20 1001)
  ∧ "user-2" ≠ "user-1"
  ∧ getCursor "user-2" (updateCursor "user-1" 10 20 1001 s)
    = getCursor "user-2" s.
Proof.
  assert (is_Some (activeUsers (run [AddUser "user-1" "Alice" None 1000]
                                    init) !! "user-1")) as Ha
    by (eexists; vm_compute; reflexivity).
  assert ("user-2" ≠ "user-1") as Hne by discriminate.
  pose proof (updateCursor_then_getCursor
                (run [AddUser "user-1" "Alice" None 1000] init)
                "user-1" 10 20 1001) as (Hget & Hother & _).
  split; [exact Ha|]. split; [exact (Hget Ha)|].
  split; [exact Hne|exact (Hother _ Hne)].
Defined.

Lemma exec_well_formed c s : well_formed s → well_formed (exec c s).
Proof.
  unfold well_formed. intros Hs.
  destruct c as [u n col now|u|u x y now|]; simpl.
  - unfold addUser. destruct (activeUsers s !! u); [done|]. simpl.
    apply map_Forall_insert_2; [|done]. simpl.
    split; [done|apply color_or_default_not_empty].
  - by apply map_Forall_delete.
  - unfold updateCursor. by destruct (activeUsers s !! u).
  - apply map_Forall_empty.
Qed.

Lemma run_well_formed tr : ∀ s, well_formed s → well_formed (run tr s).
Proof.
  induction tr as [|c tr IH]; intros s Hs; [done|].
  simpl. apply IH. by apply exec_well_formed.
Qed.

(** X21.  What an entry holds.  [getUserColor] returns one of the twelve
    colors of the palette for every user id (the index it computes is
    always inside the palette); and in every state the store reaches, the
    entry [getUser(userId)] returns carries that same [userId] and a
    non-empty color. *)
Theorem presence_entries_well_formed :
  (∀ u, getUserColor u ∈ USER_COLORS)
  ∧ ∀ tr u p,
      getUser u (run tr init) = Some p →
      UserPresence.userId p = u ∧ UserPresence.color p ≠ "".
Proof.
  split; [apply getUserColor_in_palette|].
  intros tr u p Hp.
  assert (well_formed init) as Hinit by apply map_Forall_empty.
  exact (run_well_formed tr init Hinit u p Hp).
Qed.

Lemma presence_entries_well_formed_witness :
  let tr := [AddUser "user-1" "Alice" (Some "") 1000] in
  let p := UserPresence.mk "user-1" "Alice" "#6366F1" 1000 in
  getUser "user-1" (run tr init) = Some p
  ∧ UserPresence.userId p = "user-1" ∧ UserPresence.color p ≠ "".
Proof.
  assert (getUser "user-1"
            (run [AddUser "user-1" "Alice" (Some "") 1000] init)
          = Some (UserPresence.mk "user-1" "Alice" "#6366F1" 1000)) as Hp
    by (vm_compute; reflexivity).
  split; [exact Hp|].
  exact (proj2 presence_entries_well_formed _ _ _ Hp).
Defined.

End PresenceLifecycle.

(** ** The connection status display *)

Section ConnectionStatus.
Import ConnectionStatusComponent.



End ConnectionStatus.

(** ** The room id input *)

Section RoomSelector.
Import RoomSelectorComponent.

Implicit Types (s : state) (t pre post : string).

Lemma trim_start_length t :
  (String.length (EventStoreRouter.trim_start t) ≤ String.length t)%nat.
Proof.
  induction t as [|c t IH]; simpl; [done|].
  destruct (EventStoreRouter.is_white_space c); simpl; lia.
Qed.

Lemma trim_end_length t :
  (String.length (trim_end t) ≤ String.length t)%nat.
Proof.
  induction t as [|c t IH]; simpl; [done|].
  destruct (trim_end t); simpl in *;
    [destruct (EventStoreRouter.is_white_space c); simpl; lia|lia].
Qed.

Lemma blank_trim_start t :
  blank t = true → EventStoreRouter.trim_start t = "".
Proof.
  induction t as [|c t IH]; simpl; [done|].
  intros [Hc Ht]%andb_true_iff. rewrite Hc. by apply IH.
Qed.

Lemma blank_trim_end t : blank t = true → trim_end t = "".
Proof.
  induction t as [|c t IH]; simpl; [done|].
  intros [Hc Ht]%andb_true_iff. by rewrite (IH Ht), Hc.
Qed.

Lemma trim_start_prefix pre t :
  blank pre = true →
  EventStoreRouter.trim_start (pre +:+ t) = EventStoreRouter.trim_start t.
Proof.
  induction pre as [|c pre IH]; simpl; [done|].
  intros [Hc Hpre]%andb_true_iff. rewrite Hc. by apply IH.
Qed.

Lemma trim_end_suffix t post :
  blank post = true → trim_end (t +:+ post) = trim_end t.
Proof.
  intros Hpost. induction t as [|c t IH]; simpl.
  - by apply blank_trim_end.
  - by rewrite IH.
Qed.

Lemma trim_padding pre t post :
  blank pre = true → blank post = true →
  trim (pre +:+ t +:+ post) = trim t.
Proof.
  intros Hpre Hpost. unfold trim. rewrite (trim_start_prefix _ _ Hpre).
  induction t as [|c t IH]; simpl.
  - change ("" +:+ post) with post. by rewrite (blank_trim_start _ Hpost).
  - destruct (EventStoreRouter.is_white_space c); [done|].
    change (String c (t +:+ post)) with (String c t +:+ post).
    by apply trim_end_suffix.
Qed.

(** X23.  Which room ids can be joined.  Join is enabled only when loading
    is off and the input, without the white space around it, has at least
    three characters; then the trimmed id is not empty.  An input of white
    space only is never valid, and white space added around an input does
    not change whether it is valid. *)
Theorem room_id_validity s :
  (canJoin s = true →
     (3 ≤ String.length (trim (roomIdInput s)))%nat
     ∧ trim (roomIdInput s) ≠ ""
     ∧ (3 ≤ String.length (roomIdInput s))%nat
     ∧ isLoading s = false)
  ∧ (blank (roomIdInput s) = true →
       isValidRoomId s = false ∧ canJoin s = false)
  ∧ (∀ pre post, blank pre = true → blank post = true →
       isValidRoomId (onRoomIdChange (pre +:+ roomIdInput s +:+ post) s)
       = isValidRoomId s).
Proof.
  unfold canJoin, isValidRoomId. split; [|split].
  - intros [Hlen Hload]%andb_true_iff. apply Nat.leb_le in Hlen.
    apply negb_true_iff in Hload.
    split; [done|]. split; [|split; [|done]].
    + intros Hempty. rewrite Hempty in Hlen. simpl in Hlen. lia.
    + unfold trim in Hlen.
      pose proof (trim_end_length
                    (EventStoreRouter.trim_start (roomIdInput s))).
      pose proof (trim_start_length (roomIdInput s)). lia.
  - intros Hblank. unfold trim.
    by rewrite (blank_trim_start _ Hblank).
  - intros pre post Hpre Hpost. simpl. by rewrite trim_padding.
Qed.

Lemma room_id_validity_witness :
  let s := onRoomIdChange "  room-7 " (init "") in
  canJoin s = true
  ∧ trim (roomIdInput s) = "room-7"
  ∧ blank "   " = true
  ∧ isValidRoomId (onRoomIdChange "   " s) = false.
Proof.
  assert (canJoin (onRoomIdChange "  room-7 " (init "")) = true) as Hj
    by reflexivity.
  assert (blank (roomIdInput (onRoomIdChange "   "
                   (onRoomIdChange "  room-7 " (init "")))) = true) as Hb
    by reflexivity.
  split; [exact Hj|]. split; [reflexivity|]. split; [reflexivity|].
  exact (proj1 (proj1 (proj2 (room_id_validity _)) Hb)).
Defined.

End RoomSelector.
